(** * The feed normalisation pipeline of [scripts/fetch.py]

    A shallow embedding of the classification rules ([REGION_MAP],
    [CATEGORY_GUESS], [score_impact], the tag triggers), of [normalize] and
    of the deduplication and ranking steps of [main], together with the
    properties of the pipeline that the specification states.

    Texts are Python [str] values.  They are modelled as Rocq strings whose
    characters are the code points below 256; the character classes [\w],
    [\s] and [\d] and the case folding of [re.I] are those of Python 3 on
    that range. *)

From Stdlib Require Import ZArith NArith Ascii String Lia Bool.
From stdpp Require Import base decidable option list sorting strings pretty gmap.

Local Open Scope Z_scope.

(** ** Characters *)

Module Char.

Definition code (c : ascii) : N := N_of_ascii c.

Definition between (lo hi : N) (c : ascii) : bool :=
  ((lo <=? code c) && (code c <=? hi))%N.

(** [\d]: the decimal digits. *)
Definition is_digit (c : ascii) : bool := between 48 57 c.

(** [\s] and [str.isspace]: tab, line feed, vertical tab, form feed,
    carriage return, the four separators 0x1c-0x1f, space, NEL and the
    no-break space. *)
Definition is_space (c : ascii) : bool :=
  between 9 13 c || between 28 32 c || between 133 133 c || between 160 160 c.

Definition is_ascii_upper (c : ascii) : bool := between 65 90 c.
Definition is_ascii_lower (c : ascii) : bool := between 97 122 c.

(** [\w]: alphanumeric code points and the underscore.  Above 127 these
    are the Latin-1 letters, the ordinal indicators, the micro sign, the
    superscript digits and the vulgar fractions. *)
Definition is_word (c : ascii) : bool :=
  is_digit c || is_ascii_upper c || is_ascii_lower c || between 95 95 c
  || between 170 170 c || between 178 179 c || between 181 181 c
  || between 185 186 c || between 188 190 c || between 192 214 c
  || between 216 246 c || between 248 255 c.

(** Case folding of the ASCII letters.  Every literal of the source's
    patterns is ASCII, and below 256 an ASCII letter matches under [re.I]
    exactly its two cases. *)
Definition lower (c : ascii) : ascii :=
  if is_ascii_upper c then ascii_of_N (code c + 32) else c.

Definition upper (c : ascii) : ascii :=
  if is_ascii_lower c then ascii_of_N (code c - 32) else c.

Definition eqb_fold (ic : bool) (a b : ascii) : bool :=
  if ic then Ascii.eqb (lower a) (lower b) else Ascii.eqb a b.

End Char.

(** ** Regular expressions

    The fragment of Python's [re] syntax that the source uses: literals,
    the classes [\d], [\s] and [[a-b]], the assertion [\b], concatenation,
    alternation and repetition. *)

Inductive cset : Type :=
| Digit
| Space
| Range (lo hi : ascii).

Inductive regex : Type :=
| Eps
| Lit (c : ascii)
| In (cs : cset)
| WordB
| Cat (r1 r2 : regex)
| Alt (r1 r2 : regex)
| Star (r : regex).

Module Re.

Definition in_cset (ic : bool) (cs : cset) (c : ascii) : bool :=
  match cs with
  | Digit => Char.is_digit c
  | Space => Char.is_space c
  | Range lo hi =>
      let inr x := Char.between (Char.code lo) (Char.code hi) x in
      inr c || (ic && (inr (Char.lower c) || inr (Char.upper c)))
  end.

(** [\b] holds between two characters of which exactly one is a word
    character; the two ends of the text count as non-word. *)
Definition word_before (p : option ascii) : bool :=
  match p with Some c => Char.is_word c | None => false end.

Definition word_after (s : string) : bool :=
  match s with String c _ => Char.is_word c | EmptyString => false end.

Definition at_boundary (p : option ascii) (s : string) : bool :=
  xorb (word_before p) (word_after s).

(** A position in the text: the character before it, if any, and the text
    from it on. *)
Definition cont : Type := option ascii -> string -> bool.

(** The loop of a repetition.  [body] matches one iteration; an iteration
    that consumes nothing adds no match, so only iterations that shorten
    the text are followed, and [n] bounds their number. *)
Fixpoint star_loop (body : option ascii -> string -> cont -> bool) (k : cont)
    (n : nat) (p : option ascii) (s : string) {struct n} : bool :=
  match n with
  | O => k p s
  | S n' =>
      if body p s
           (fun p' s' =>
              if (String.length s' <? String.length s)%nat
              then star_loop body k n' p' s' else false)
      then true else k p s
  end.

(** The backtracking matcher in continuation-passing style:
    [run ic r p s k] tries every way of matching [r] from the position
    [(p, s)] and hands the position after the match to [k]. *)
Fixpoint run (ic : bool) (r : regex) (p : option ascii) (s : string)
    (k : cont) {struct r} : bool :=
  match r with
  | Eps => k p s
  | Lit c =>
      match s with
      | String t s' => if Char.eqb_fold ic c t then k (Some t) s' else false
      | EmptyString => false
      end
  | In cs =>
      match s with
      | String t s' => if in_cset ic cs t then k (Some t) s' else false
      | EmptyString => false
      end
  | WordB => if at_boundary p s then k p s else false
  | Cat r1 r2 => run ic r1 p s (fun p' s' => run ic r2 p' s' k)
  | Alt r1 r2 => if run ic r1 p s k then true else run ic r2 p s k
  | Star r1 => star_loop (run ic r1) k (String.length s) p s
  end.

Definition accept : cont := fun _ _ => true.

(** [scan] slides the start of the match over the text, left to right. *)
Fixpoint scan (ic : bool) (r : regex) (p : option ascii) (s : string) : bool :=
  if run ic r p s accept then true
  else match s with
       | String c s' => scan ic r (Some c) s'
       | EmptyString => false
       end.

(** [re.search(r, s)] is not [None]. *)
Definition search (ic : bool) (r : regex) (s : string) : bool :=
  scan ic r None s.

(** Pattern constructors. *)
Fixpoint str (s : string) : regex :=
  match s with
  | EmptyString => Eps
  | String c EmptyString => Lit c
  | String c s' => Cat (Lit c) (str s')
  end.

Definition opt (r : regex) : regex := Alt r Eps.

Fixpoint alts (r : regex) (rs : list regex) : regex :=
  match rs with
  | [] => r
  | r' :: rs' => Alt r (alts r' rs')
  end.

Fixpoint seq (rs : list regex) : regex :=
  match rs with
  | [] => Eps
  | [r] => r
  | r :: rs' => Cat r (seq rs')
  end.

End Re.

(** ** The rule tables

    Each pattern is the parse of the source's pattern string.  Alternation
    binds weakest, so in [\bGermany|German|...|TransnetBW\b] the leading
    [\b] belongs to the first alternative only and the trailing one to the
    last; the two scoring patterns with a group keep both assertions around
    the whole alternation.  All of them are compiled with [re.I]. *)

Definition word (s : string) : regex := Re.str s.
Definition bword (s : string) : regex := Cat WordB (Re.str s).
Definition wordb (s : string) : regex := Cat (Re.str s) WordB.

(** [\bGermany|German|Bundesnetzagentur|BNetzA|Fraunhofer|TenneT|50Hertz|Amprion|TransnetBW\b] *)
Definition RX_GERMANY : regex :=
  Re.alts (bword "Germany")
    [word "German"; word "Bundesnetzagentur"; word "BNetzA"; word "Fraunhofer";
     word "TenneT"; word "50Hertz"; word "Amprion"; wordb "TransnetBW"].

(** [\bIndia|MNRE|SECI|CEA|CERC|Gujarat|Maharashtra|Rajasthan|Grid-India|POSOCO\b] *)
Definition RX_INDIA : regex :=
  Re.alts (bword "India")
    [word "MNRE"; word "SECI"; word "CEA"; word "CERC"; word "Gujarat";
     word "Maharashtra"; word "Rajasthan"; word "Grid-India"; wordb "POSOCO"].

(** [\bEurope|European Commission|EU\b] *)
Definition RX_EUROPE : regex :=
  Re.alts (bword "Europe") [word "European Commission"; wordb "EU"].

Definition REGION_MAP : list (regex * (string * string)) :=
  [ (RX_GERMANY, ("Germany", "DE"));
    (RX_INDIA, ("India", "IN"));
    (RX_EUROPE, ("Europe", "EU")) ].

(** [\bauction|tender|RfS|RFP|bid|awarded\b] *)
Definition RX_TENDER : regex :=
  Re.alts (bword "auction")
    [word "tender"; word "RfS"; word "RFP"; word "bid"; wordb "awarded"].

(** [\bpolicy|regulation|consultation|state-aid|EEG|grid code\b] *)
Definition RX_POLICY_CAT : regex :=
  Re.alts (bword "policy")
    [word "regulation"; word "consultation"; word "state-aid"; word "EEG";
     wordb "grid code"].

(** [\bproject|NTP|COD|commission|construction\b] *)
Definition RX_PROJECT : regex :=
  Re.alts (bword "project")
    [word "NTP"; word "COD"; word "commission"; wordb "construction"].

(** [\bprice|tariff|LCOE|module price|battery price\b] *)
Definition RX_PRICE : regex :=
  Re.alts (bword "price")
    [word "tariff"; word "LCOE"; word "module price"; wordb "battery price"].

(** [\bancillary|capacity market|balancing|curtailment\b] *)
Definition RX_GRID : regex :=
  Re.alts (bword "ancillary")
    [word "capacity market"; word "balancing"; wordb "curtailment"].

(** [\bOEM|inverter|module|battery|technology\b] *)
Definition RX_TECH : regex :=
  Re.alts (bword "OEM")
    [word "inverter"; word "module"; word "battery"; wordb "technology"].

Definition CATEGORY_GUESS : list (regex * string) :=
  [ (RX_TENDER, "tender"); (RX_POLICY_CAT, "policy"); (RX_PROJECT, "project");
    (RX_PRICE, "price"); (RX_GRID, "grid"); (RX_TECH, "tech") ].

(** [\b(GW|[3-9]\d{2}\s*MW)\b] *)
Definition RX_CAPACITY : regex :=
  Re.seq
    [ WordB;
      Alt (word "GW")
        (Re.seq [In (Range "3" "9"); In Digit; In Digit; Star (In Space); word "MW"]);
      WordB ].

(** [\b(>?\s*1000\s*MW|gigawatt)\b] *)
Definition RX_GIGAWATT : regex :=
  Re.seq
    [ WordB;
      Alt (Re.seq [Re.opt (Lit ">"); Star (In Space); word "1000";
                   Star (In Space); word "MW"])
        (word "gigawatt");
      WordB ].

(** [\bpolicy|auction result|capacity market|state-aid\b] *)
Definition RX_POLICY : regex :=
  Re.alts (bword "policy")
    [word "auction result"; word "capacity market"; wordb "state-aid"].

(** [\bhybrid|PV\+BESS|RTC\b] *)
Definition RX_TAG_HYBRID : regex :=
  Re.alts (bword "hybrid") [word "PV+BESS"; wordb "RTC"].

(** [\bwind\b] *)
Definition RX_TAG_WIND : regex := Re.seq [WordB; word "wind"; WordB].

(** [\bPV|solar\b] *)
Definition RX_TAG_PV : regex := Alt (bword "PV") (wordb "solar").

(** [\bbattery|BESS|storage\b] *)
Definition RX_TAG_STORAGE : regex :=
  Re.alts (bword "battery") [word "BESS"; wordb "storage"].

(** ** Classifiers on the text alone *)

(** The loop of [guess_category] and of the first half of
    [infer_region_country]: the value of the first rule whose pattern is
    found in the text. *)
Fixpoint first_match {A : Type} (rules : list (regex * A)) (text : string)
    : option A :=
  match rules with
  | [] => None
  | (rx, v) :: rules' =>
      if Re.search true rx text then Some v else first_match rules' text
  end.

Definition guess_category (text : string) : string :=
  match first_match CATEGORY_GUESS text with
  | Some cat => cat
  | None => "market"
  end.

Definition score_impact (text : string) : Z :=
  let score := 3 in
  let score := if Re.search true RX_CAPACITY text then 4 else score in
  let score := if Re.search true RX_GIGAWATT text then 5 else score in
  let score := if Re.search true RX_POLICY text then Z.max score 4 else score in
  score.

(** ** Exceptions *)

Inductive exn : Type :=
| ValueError
| OverflowError
| TypeError
| KeyError (label : string).

Inductive result (A : Type) : Type :=
| Ok (a : A)
| Raise (e : exn).

Arguments Ok {A} a.
Arguments Raise {A} e.

Definition bind {A B : Type} (m : result A) (f : A -> result B) : result B :=
  match m with
  | Ok a => f a
  | Raise e => Raise e
  end.

Notation "'try' x <- m 'in' k" := (bind m (fun x => k))
  (at level 10, x name, m at level 100, k at level 200).

(** ** String operations of the standard library *)

Module Str.

Definition truthy (s : string) : bool :=
  match s with EmptyString => false | String _ _ => true end.

Fixpoint lstrip (s : string) : string :=
  match s with
  | String c s' => if Char.is_space c then lstrip s' else s
  | EmptyString => EmptyString
  end.

Fixpoint rstrip (s : string) : string :=
  match s with
  | String c s' =>
      let r := rstrip s' in
      if Char.is_space c && negb (truthy r) then EmptyString else String c r
  | EmptyString => EmptyString
  end.

(** [s.strip()] *)
Definition strip (s : string) : string := rstrip (lstrip s).

(** [re.sub(r"\s+", " ", s)]: every maximal run of whitespace becomes one
    space; [in_run] tells that the previous character was whitespace. *)
Fixpoint collapse (in_run : bool) (s : string) : string :=
  match s with
  | String c s' =>
      if Char.is_space c
      then if in_run then collapse true s' else String " " (collapse true s')
      else String c (collapse false s')
  | EmptyString => EmptyString
  end.

Definition sub_spaces (s : string) : string := collapse false s.

(** [s[:n]] *)
Definition take (n : nat) (s : string) : string := String.substring 0 n s.

(** [s.endswith(suf)] *)
Fixpoint endswith (suf s : string) : bool :=
  if String.eqb s suf then true
  else match s with
       | String _ s' => endswith suf s'
       | EmptyString => false
       end.

Fixpoint contains (c : ascii) (s : string) : bool :=
  match s with
  | String t s' => if Ascii.eqb t c then true else contains c s'
  | EmptyString => false
  end.

Fixpoint filter (f : ascii -> bool) (s : string) : string :=
  match s with
  | String c s' => if f c then String c (filter f s') else filter f s'
  | EmptyString => EmptyString
  end.

Fixpoint take_while (f : ascii -> bool) (s : string) : string :=
  match s with
  | String c s' => if f c then String c (take_while f s') else EmptyString
  | EmptyString => EmptyString
  end.

(** [s.partition(":")] when the separator occurs: the text before the
    first colon and the text after it. *)
Fixpoint split_colon (s : string) : option (string * string) :=
  match s with
  | String c s' =>
      if Ascii.eqb c ":" then Some (EmptyString, s')
      else match split_colon s' with
           | Some (a, b) => Some (String c a, b)
           | None => None
           end
  | EmptyString => None
  end.

Fixpoint forallb (f : ascii -> bool) (s : string) : bool :=
  match s with
  | String c s' => if f c then forallb f s' else false
  | EmptyString => true
  end.

End Str.

(** ** [urllib.parse.urlparse(url).netloc]

    The part of [urlsplit] that decides the network location: leading C0
    controls and spaces are stripped, tabs and line breaks removed, a
    scheme is split off when everything before the first colon is a scheme
    character and the first character an ASCII letter, and the network
    location is what follows a leading [//] up to the first of [/], [?] and
    [#].  A network location with one bracket and not the other is a
    [ValueError]; one with both is handed to the library's check of
    bracketed hosts, whose verdict is a parameter of the model.  The final
    NFKC check of [urlsplit] never fails below code point 256. *)

Module Url.

Definition is_c0_or_space (c : ascii) : bool := Char.between 0 32 c.

Fixpoint lstrip_c0 (s : string) : string :=
  match s with
  | String c s' => if is_c0_or_space c then lstrip_c0 s' else s
  | EmptyString => EmptyString
  end.

Definition is_unsafe (c : ascii) : bool :=
  Char.between 9 10 c || Char.between 13 13 c.

Definition is_scheme_char (c : ascii) : bool :=
  Char.is_ascii_lower c || Char.is_ascii_upper c || Char.is_digit c
  || Char.between 43 43 c || Char.between 45 46 c.

Definition is_ascii_alpha (c : ascii) : bool :=
  Char.is_ascii_lower c || Char.is_ascii_upper c.

(** The text that remains once a scheme has been split off. *)
Definition drop_scheme (url : string) : string :=
  match Str.split_colon url with
  | Some (String c pre, rest) =>
      if is_ascii_alpha c && Str.forallb is_scheme_char (String c pre)
      then rest else url
  | _ => url
  end.

Definition is_delim (c : ascii) : bool :=
  Ascii.eqb c "/" || Ascii.eqb c "?" || Ascii.eqb c "#".

(** What follows the two slashes when [url[:2] == '//']. *)
Definition after_slashes (url : string) : option string :=
  match url with
  | String "/" (String "/" rest) => Some rest
  | _ => None
  end.

Definition netloc (check_bracketed_netloc : string -> bool) (url : string)
    : result string :=
  let url := lstrip_c0 url in
  let url := Str.filter (fun c => negb (is_unsafe c)) url in
  let url := drop_scheme url in
  match after_slashes url with
  | Some rest =>
      let loc := Str.take_while (fun c => negb (is_delim c)) rest in
      let lb := Str.contains "[" loc in
      let rb := Str.contains "]" loc in
      if xorb lb rb then Raise ValueError
      else if lb && rb && negb (check_bracketed_netloc loc) then Raise ValueError
      else Ok loc
  | None => Ok EmptyString
  end.

End Url.

(** The library check as CPython 3.10 has it: no bracketed host is
    rejected.  Later versions reject those that are not IPv6 or IPvFuture
    literals. *)
Definition accept_bracketed : string -> bool := fun _ => true.

(** ** Time *)

Record struct_time : Type := mk_struct_time {
  tm_year : Z; tm_mon : Z; tm_mday : Z;
  tm_hour : Z; tm_min : Z; tm_sec : Z;
  tm_wday : Z; tm_yday : Z; tm_isdst : Z
}.

Record datetime : Type := mk_datetime {
  year : Z; month : Z; day : Z; hour : Z; minute : Z; second : Z
}.

Module Time.

Definition is_leap (y : Z) : bool :=
  (y mod 4 =? 0) && (negb (y mod 100 =? 0) || (y mod 400 =? 0)).

Definition days_in_month (y m : Z) : Z :=
  if m =? 2 then (if is_leap y then 29 else 28)
  else if (m =? 4) || (m =? 6) || (m =? 9) || (m =? 11) then 30
  else 31.

Definition valid (y m d hh mm ss : Z) : bool :=
  (1 <=? y) && (y <=? 9999) && (1 <=? m) && (m <=? 12)
  && (1 <=? d) && (d <=? days_in_month y m)
  && (0 <=? hh) && (hh <=? 23) && (0 <=? mm) && (mm <=? 59)
  && (0 <=? ss) && (ss <=? 59).

(** The arguments of [datetime] are converted to C [int] values, of 32
    bits, before any of them is looked at. *)
Definition fits_int (n : Z) : bool := (-2147483648 <=? n) && (n <=? 2147483647).

(** [datetime(y, m, d, hh, mm, ss, tzinfo=timezone.utc)]: [OverflowError]
    when an argument does not fit a C [int], whatever the others are, and
    [ValueError] when the arguments fit and are no calendar time. *)
Definition make (y m d hh mm ss : Z) : result datetime :=
  if negb (forallb fits_int [y; m; d; hh; mm; ss]) then Raise OverflowError
  else if valid y m d hh mm ss then Ok (mk_datetime y m d hh mm ss)
  else Raise ValueError.

(** The call of [datetime] on the first six components of the tuple. *)
Definition of_struct_time (t : struct_time) : result datetime :=
  make (tm_year t) (tm_mon t) (tm_mday t) (tm_hour t) (tm_min t) (tm_sec t).

Definition two_digits (n : Z) : string :=
  if n <? 10 then "0" +:+ pretty n else pretty n.

(** [strftime("%Y-%m-%d")]; the C library prints the year unpadded. *)
Definition strftime_ymd (d : datetime) : string :=
  pretty (year d) +:+ "-" +:+ two_digits (month d) +:+ "-" +:+ two_digits (day d).

Definition valid_struct_time (t : struct_time) : bool :=
  valid (tm_year t) (tm_mon t) (tm_mday t) (tm_hour t) (tm_min t) (tm_sec t).

Definition fits_struct_time (t : struct_time) : bool :=
  forallb fits_int
    [tm_year t; tm_mon t; tm_mday t; tm_hour t; tm_min t; tm_sec t].

End Time.

(** ** Entries and items *)

(** What a dictionary holds under a key whose value is a string when there
    is one: no such key, the value [None], or a string. *)
Inductive slot : Type :=
| Missing
| Null
| Text (s : string).

(** [d.get(key, dflt)]: the default stands in for a missing key only, and
    the value [None] is handed on as it is. *)
Definition get_default (v : slot) (dflt : string) : option string :=
  match v with
  | Missing => Some dflt
  | Null => None
  | Text s => Some s
  end.

(** An entry of a parsed feed: a dictionary in which every key may be
    missing.  The keys that [normalize] reads through [or] are options:
    [None] stands for a missing key and for the value [None] alike, which
    [or] does not tell apart.  The link is read with a default and keeps
    the three cases.  The two timestamps are [time.struct_time] values. *)
Record RawEntry : Type := mk_entry {
  title : option string;
  summary : option string;
  subtitle : option string;
  link : slot;
  published_parsed : option struct_time;
  updated_parsed : option struct_time
}.

Record Location : Type := mk_location {
  state_or_laender : string;
  city : string;
  grid_zone : string
}.

(** The dictionary [item] that [normalize] returns. *)
Record Item : Type := mk_item {
  date_utc : string;
  headline : string;
  summary_80w : string;
  region : string;
  country : string;
  category : string;
  subtopic : string;
  capacity_MW : Z;
  storage_MWh : Z;
  project_stage : string;
  tariff_or_price_local : string;
  tariff_or_price_usd : string;
  entities : list string;
  location : Location;
  effective_date : string;
  impact_score_1to5 : Z;
  tags : list string;
  source_name : string;
  source_url : string;
  reliability : string;
  notes : string
}.

(** [FEEDS]: the registry of sources. *)
Definition FEEDS : list (string * string) :=
  [ ("PV-Tech", "https://www.pv-tech.org/feed/");
    ("Energy Storage News", "https://www.energy-storage.news/feed/");
    ("IEA News", "https://www.iea.org/rss/news.xml");
    ("IRENA", "https://www.irena.org/rss");
    ("Bundesnetzagentur",
     "https://www.bundesnetzagentur.de/SiteGlobals/Functions/RSSFeed/rss_nachrichten.xml?nn=268128");
    ("EU Energy", "https://ec.europa.eu/newsroom/ener/rss.cfm?type=atom") ].

(** The tuple against which [normalize] tests the source name. *)
Definition OFFICIAL : list string :=
  ["Bundesnetzagentur"; "IEA"; "IRENA"; "EU Energy"].

(** [a or b] on strings and on optional strings: the first operand unless it
    is missing or empty. *)
Definition or_str (a : option string) (b : string) : string :=
  match a with
  | Some s => if Str.truthy s then s else b
  | None => b
  end.

Definition or_opt {A : Type} (a b : option A) : option A :=
  match a with
  | Some x => Some x
  | None => b
  end.

(** The right operand of [+] on strings: [str + None] raises
    [TypeError]. *)
Definition str_operand (v : option string) : result string :=
  match v with
  | Some s => Ok s
  | None => Raise TypeError
  end.

(** ** The normalizer *)

Section Normalizer.

Variable check_bracketed_netloc : string -> bool.

Definition infer_region_country (text : string) : string * string :=
  match first_match REGION_MAP text with
  | Some rc => rc
  | None =>
      let host :=
        match Url.netloc check_bracketed_netloc text with
        | Ok h => h
        | Raise _ => ""
        end in
      if Str.endswith ".de" host then ("Germany", "DE") else ("Global", "")
  end.

(** The tags: the baseline tag, then one tag per trigger that fires, in
    the order of the triggers. *)
Definition derive_tags (text : string) : list string :=
  let tags := ["utility-scale"] in
  let tags := if Re.search true RX_TAG_HYBRID text then tags ++ ["PV+BESS"] else tags in
  let tags := if Re.search true RX_TAG_WIND text then tags ++ ["wind"] else tags in
  let tags := if Re.search true RX_TAG_PV text then tags ++ ["PV"] else tags in
  let tags := if Re.search true RX_TAG_STORAGE text then tags ++ ["storage"] else tags in
  tags.

(** [now] is the value of [datetime.now(timezone.utc)]. *)
Definition entry_date (now : datetime) (e : RawEntry) : result string :=
  match or_opt (published_parsed e) (updated_parsed e) with
  | Some dt => try d <- Time.of_struct_time dt in Ok (Time.strftime_ymd d)
  | None => Ok (Time.strftime_ymd now)
  end.

Definition normalize (now : datetime) (src_name : string) (e : RawEntry)
    : result Item :=
  let title := Str.strip (or_str (title e) "") in
  let summary := Str.strip (or_str (summary e) (or_str (subtitle e) "")) in
  let link := get_default (link e) "" in
  try date_utc <- entry_date now e in
  let text := title +:+ " " +:+ summary in
  try link <- str_operand link in
  let '(region, country) := infer_region_country (text +:+ " " +:+ link) in
  let category := guess_category text in
  let impact := score_impact text in
  Ok {| date_utc := date_utc;
        headline := title;
        summary_80w := Str.take 600 (Str.sub_spaces summary);
        region := region;
        country := if Str.truthy country then country
                   else if String.eqb region "Europe" then "EU" else "";
        category := category;
        subtopic := "";
        capacity_MW := 0;
        storage_MWh := 0;
        project_stage := "NA";
        tariff_or_price_local := "";
        tariff_or_price_usd := "";
        entities := [];
        location := mk_location "" "" "";
        effective_date := date_utc;
        impact_score_1to5 := impact;
        tags := derive_tags text;
        source_name := src_name;
        source_url := link;
        reliability := if bool_decide (src_name ∈ OFFICIAL) then "official" else "trade";
        notes := "" |}.

End Normalizer.

(** ** Deduplication and ranking *)

Definition dedup_key (it : Item) : string * string :=
  (headline it, source_url it).

(** One turn of the loop over [items]: the state is the set [seen] and the
    list [dedup]. *)
Definition dedup_step (st : gset (string * string) * list Item) (it : Item)
    : gset (string * string) * list Item :=
  let k := dedup_key it in
  if bool_decide (k ∈ st.1) then st else ({[k]} ∪ st.1, st.2 ++ [it]).

Definition deduplicate (items : list Item) : list Item :=
  (fold_left dedup_step items (∅, [])).2.

(** [DataFrame.sort_values] on several columns sorts as [numpy.lexsort]
    does: one stable sort per column, from the last column to the first.
    The stable sort is modelled by insertion from the right. *)
Section StableSort.

Context {A : Type} (geb : A -> A -> bool).

Fixpoint insert_desc (x : A) (l : list A) : list A :=
  match l with
  | [] => [x]
  | y :: l' => if geb x y then x :: l else y :: insert_desc x l'
  end.

Fixpoint stable_sort_desc (l : list A) : list A :=
  match l with
  | [] => []
  | x :: l' => insert_desc x (stable_sort_desc l')
  end.

End StableSort.

(** The two columns, both descending; dates are compared as strings. *)
Definition date_geb (a b : Item) : bool := String.leb (date_utc b) (date_utc a).
Definition score_geb (a b : Item) : bool := impact_score_1to5 b <=? impact_score_1to5 a.

Definition lexsort (items : list Item) : list Item :=
  stable_sort_desc date_geb (stable_sort_desc score_geb items).

(** [pd.DataFrame(dedup).sort_values(["date_utc","impact_score_1to5"],
    ascending=[False, False])].  A frame built from the empty list has no
    columns, so looking up the first sort column raises [KeyError]. *)
Definition rank (dedup : list Item) : result (list Item) :=
  match dedup with
  | [] => Raise (KeyError "date_utc")
  | _ :: _ => Ok (lexsort dedup)
  end.

(** The second half of [main]. *)
Definition dedup_and_rank (items : list Item) : result (list Item) :=
  rank (deduplicate items).

(** ** Vocabulary of the properties *)

(** The entry in which every field is missing. *)
Definition empty_entry : RawEntry := mk_entry None None None Missing None None.

(** A reading of the clock and two entries used in the examples. *)
Definition sample_now : datetime := mk_datetime 2024 1 2 12 0 0.

Definition auction_entry : RawEntry :=
  mk_entry (Some "Germany awards 500 MW solar auction")
    (Some "Bundesnetzagentur confirms results") None Missing None None.

Definition solar_news_entry : RawEntry :=
  mk_entry (Some "Solar news") None None
    (Text "https://www.pv-magazine.de/x") None None.

(** The item that [normalize] returns for [auction_entry] fetched from the
    source Bundesnetzagentur at [sample_now]. *)
Definition auction_item : Item :=
  {| date_utc := "2024-01-02";
     headline := "Germany awards 500 MW solar auction";
     summary_80w := "Bundesnetzagentur confirms results";
     region := "Germany";
     country := "DE";
     category := "tender";
     subtopic := "";
     capacity_MW := 0;
     storage_MWh := 0;
     project_stage := "NA";
     tariff_or_price_local := "";
     tariff_or_price_usd := "";
     entities := [];
     location := mk_location "" "" "";
     effective_date := "2024-01-02";
     impact_score_1to5 := 4;
     tags := ["utility-scale"; "PV"];
     source_name := "Bundesnetzagentur";
     source_url := "";
     reliability := "official";
     notes := "" |}.

(** An item with a given headline, date and score; the other fields are
    those of [auction_item]. *)
Definition sample_item (h d : string) (score : Z) : Item :=
  {| date_utc := d;
     headline := h;
     summary_80w := summary_80w auction_item;
     region := region auction_item;
     country := country auction_item;
     category := category auction_item;
     subtopic := "";
     capacity_MW := 0;
     storage_MWh := 0;
     project_stage := "NA";
     tariff_or_price_local := "";
     tariff_or_price_usd := "";
     entities := [];
     location := mk_location "" "" "";
     effective_date := d;
     impact_score_1to5 := score;
     tags := tags auction_item;
     source_name := source_name auction_item;
     source_url := "";
     reliability := reliability auction_item;
     notes := "" |}.

(** The entry that carries a link and nothing else. *)
Definition link_only_entry : RawEntry :=
  mk_entry None None None (Text "https://www.pv-magazine.de/x") None None.

(** The timestamps of an entry are calendar times, as the feed parser
    produces them: year 1 to 9999, a day that exists in its month, and a
    time of day.  Its link, when the key is there, is a string. *)
Definition wf_timestamp (o : option struct_time) : Prop :=
  match o with
  | Some t => Time.valid_struct_time t = true
  | None => True
  end.

Definition wf_entry (e : RawEntry) : Prop :=
  wf_timestamp (published_parsed e) /\ wf_timestamp (updated_parsed e) /\
  link e <> Null.

(** The local variables [title], [summary], [link] and [text] of
    [normalize]; the link as the string that is appended to the text, empty
    when the entry has none. *)
Definition entry_title (e : RawEntry) : string := Str.strip (or_str (title e) "").
Definition entry_summary (e : RawEntry) : string :=
  Str.strip (or_str (summary e) (or_str (subtitle e) "")).
Definition entry_link (e : RawEntry) : string :=
  match link e with
  | Text s => s
  | Missing | Null => ""
  end.
Definition entry_text (e : RawEntry) : string :=
  entry_title e +:+ " " +:+ entry_summary e.

(** A headline that begins with a plain word: an ASCII letter, then
    letters and digits, then the end of the headline or a space. *)
Definition is_ascii_alnum (c : ascii) : bool :=
  Char.is_ascii_lower c || Char.is_ascii_upper c || Char.is_digit c.

Definition starts_with_word (s : string) : Prop :=
  exists c w rest,
    s = String c w +:+ rest /\
    Url.is_ascii_alpha c = true /\
    Str.forallb is_ascii_alnum w = true /\
    (rest = "" \/ exists r, rest = String " " r).

(** What the loop of [main] leaves in [dedup], as a function of the keys
    seen so far and of the items still to come. *)
Fixpoint dedup_from (seen : gset (string * string)) (items : list Item)
    : list Item :=
  match items with
  | [] => []
  | it :: rest =>
      if bool_decide (dedup_key it ∈ seen) then dedup_from seen rest
      else it :: dedup_from ({[dedup_key it]} ∪ seen) rest
  end.

Definition has_key (k : string * string) (it : Item) : Prop := dedup_key it = k.

Global Instance has_key_dec k it : Decision (has_key k it) :=
  decide (dedup_key it = k).

(** The order of the ranking: later dates first, and among equal dates
    higher scores first. *)
Definition rank_key (it : Item) : string * Z := (date_utc it, impact_score_1to5 it).

Definition rank_ge (a b : Item) : Prop :=
  (String.ltb (date_utc b) (date_utc a) = true)
  \/ (date_utc a = date_utc b /\ impact_score_1to5 b <= impact_score_1to5 a).

Definition has_rank_key (k : string * Z) (it : Item) : Prop := rank_key it = k.

Global Instance has_rank_key_dec k it : Decision (has_rank_key k it) :=
  decide (rank_key it = k).

(** *** What a pattern matches

    [matches ic r p s p' s'] holds when [r] matches the text between the
    position [(p, s)] and the later position [(p', s')]. *)
Inductive matches (ic : bool)
    : regex -> option ascii -> string -> option ascii -> string -> Prop :=
| m_eps p s : matches ic Eps p s p s
| m_lit c t p s :
    Char.eqb_fold ic c t = true -> matches ic (Lit c) p (String t s) (Some t) s
| m_in cs t p s :
    Re.in_cset ic cs t = true -> matches ic (In cs) p (String t s) (Some t) s
| m_wordb p s : Re.at_boundary p s = true -> matches ic WordB p s p s
| m_cat r1 r2 p s p1 s1 p2 s2 :
    matches ic r1 p s p1 s1 -> matches ic r2 p1 s1 p2 s2 ->
    matches ic (Cat r1 r2) p s p2 s2
| m_alt_l r1 r2 p s p' s' :
    matches ic r1 p s p' s' -> matches ic (Alt r1 r2) p s p' s'
| m_alt_r r1 r2 p s p' s' :
    matches ic r2 p s p' s' -> matches ic (Alt r1 r2) p s p' s'
| m_star_nil r p s : matches ic (Star r) p s p s
| m_star_cons r p s p1 s1 p2 s2 :
    matches ic r p s p1 s1 -> (String.length s1 < String.length s)%nat ->
    matches ic (Star r) p1 s1 p2 s2 ->
    matches ic (Star r) p s p2 s2.

(** The character before the position reached by reading [pre]. *)
Fixpoint last_char (p : option ascii) (pre : string) : option ascii :=
  match pre with
  | EmptyString => p
  | String c pre' => last_char (Some c) pre'
  end.

(** [r] matches somewhere in [text]. *)
Definition found (ic : bool) (r : regex) (text : string) : Prop :=
  exists pre rest p' s',
    text = pre +:+ rest /\ matches ic r (last_char None pre) rest p' s'.

(** *** Quantities in a text *)

(** Equality of two words up to the case of ASCII letters. *)
Fixpoint eq_fold (a b : string) : bool :=
  match a, b with
  | EmptyString, EmptyString => true
  | String x a', String y b' => Char.eqb_fold true x y && eq_fold a' b'
  | _, _ => false
  end.

(** A decimal numeral without leading zero, and the number it denotes. *)
Definition digit_value (c : ascii) : N := (Char.code c - 48)%N.

Fixpoint numeral_value (acc : N) (d : string) : N :=
  match d with
  | EmptyString => acc
  | String c d' => numeral_value (10 * acc + digit_value c)%N d'
  end.

Definition is_numeral (d : string) : Prop :=
  Str.forallb Char.is_digit d = true /\
  match d with
  | EmptyString => False
  | String c EmptyString => True
  | String c _ => c <> "0"%char
  end.

(** The text mentions a quantity in megawatts whose number satisfies [P]:
    a numeral, optional whitespace and the unit [MW] in any case, not glued
    to a word character on either side. *)
Definition mentions_MW (P : N -> Prop) (text : string) : Prop :=
  exists pre digits ws unit post,
    text = pre +:+ digits +:+ ws +:+ unit +:+ post /\
    Re.word_before (last_char None pre) = false /\
    is_numeral digits /\ P (numeral_value 0 digits) /\
    Str.forallb Char.is_space ws = true /\
    eq_fold "MW" unit = true /\
    Re.word_after post = false.

(** The text contains the word [w], in any case, as a word of its own. *)
Definition mentions_word (w : string) (text : string) : Prop :=
  exists pre w' post,
    text = pre +:+ w' +:+ post /\
    Re.word_before (last_char None pre) = false /\
    eq_fold w w' = true /\
    Re.word_after post = false.

(** ** The first half of [main]

    [feedparser.parse(url)] is the feed source: it returns the entries of
    the feed or raises.  The clock is read once for every entry without a
    timestamp; [now_at i] is its reading at the entry of index [i] of a
    feed. *)

(** A line printed by the [except] branch: the name and the address of the
    feed and the exception. *)
Definition log_line : Type := string * string * exn.

(** The inner loop over the entries of one feed: the items appended until
    the end of the entries or until [normalize] raises, and the exception
    if there was one. *)
Fixpoint normalize_entries (chk : string -> bool) (now_at : nat -> datetime)
    (name : string) (i : nat) (es : list RawEntry) : list Item * option exn :=
  match es with
  | [] => ([], None)
  | e :: es' =>
      match normalize chk (now_at i) name e with
      | Ok it =>
          let r := normalize_entries chk now_at name (S i) es' in
          (it :: r.1, r.2)
      | Raise x => ([], Some x)
      end
  end.

(** One turn of the loop over [FEEDS]: the [try] block and its handler. *)
Definition run_feed (chk : string -> bool) (now_at : nat -> datetime)
    (fetch : string -> result (list RawEntry)) (feed : string * string)
    : list Item * list log_line :=
  match fetch feed.2 with
  | Raise x => ([], [(feed.1, feed.2, x)])
  | Ok entries =>
      let r := normalize_entries chk now_at feed.1 0 (take 50 entries) in
      (r.1, match r.2 with
            | Some x => [(feed.1, feed.2, x)]
            | None => []
            end)
  end.

Fixpoint collect_from (chk : string -> bool) (clock : nat -> nat -> datetime)
    (fetch : string -> result (list RawEntry)) (fi : nat)
    (feeds : list (string * string)) : list Item * list log_line :=
  match feeds with
  | [] => ([], [])
  | feed :: feeds' =>
      let a := run_feed chk (clock fi) fetch feed in
      let b := collect_from chk clock fetch (S fi) feeds' in
      (a.1 ++ b.1, a.2 ++ b.2)
  end.

(** The list [items] after the loop over [FEEDS], and what was printed. *)
Definition collect (chk : string -> bool) (clock : nat -> nat -> datetime)
    (fetch : string -> result (list RawEntry)) : list Item * list log_line :=
  collect_from chk clock fetch 0 FEEDS.

(** [main] up to the data frame [df] that is written out. *)
Definition main (chk : string -> bool) (clock : nat -> nat -> datetime)
    (fetch : string -> result (list RawEntry)) : result (list Item) :=
  dedup_and_rank (collect chk clock fetch).1.

(** ** Further vocabulary *)

(** The labels, pairs and tags that the rule tables can give. *)
Definition CATEGORIES : list string :=
  ["tender"; "policy"; "project"; "price"; "grid"; "tech"; "market"].

Definition REGION_PAIRS : list (string * string) :=
  [("Germany", "DE"); ("India", "IN"); ("Europe", "EU"); ("Global", "")].

Definition ALL_TAGS : list string :=
  ["utility-scale"; "PV+BESS"; "wind"; "PV"; "storage"].

(** The text contains [w] somewhere, in any case, also inside a longer
    word. *)
Definition contains_fold (w text : string) : Prop :=
  exists pre w' post, text = pre +:+ w' +:+ post /\ eq_fold w w' = true.

(** First and last character of a text. *)
Definition starts_with_space (s : string) : bool :=
  match s with String c _ => Char.is_space c | EmptyString => false end.

Fixpoint ends_with_space (s : string) : bool :=
  match s with
  | EmptyString => false
  | String c EmptyString => Char.is_space c
  | String _ s' => ends_with_space s'
  end.

(** Every whitespace character of the text is a space, and no two spaces
    are adjacent; [after_space] tells that the previous character was
    one. *)
Fixpoint single_spaced (after_space : bool) (s : string) : bool :=
  match s with
  | EmptyString => true
  | String c s' =>
      if Char.is_space c
      then Ascii.eqb c " " && negb after_space && single_spaced true s'
      else single_spaced false s'
  end.

(** The timestamp that [normalize] uses. *)
Definition entry_timestamp (e : RawEntry) : option struct_time :=
  or_opt (published_parsed e) (updated_parsed e).

(** The exception of [datetime] on a timestamp that is no calendar
    time. *)
Definition date_error (t : struct_time) : exn :=
  if Time.fits_struct_time t then ValueError else OverflowError.

(** Entries and a feed source for the examples. *)
Definition bad_date_entry : RawEntry :=
  mk_entry (Some "Wind tender") None None Missing
    (Some (mk_struct_time 2024 2 30 0 0 0 0 0 0)) None.

Definition huge_year_entry : RawEntry :=
  mk_entry (Some "Wind tender") None None Missing
    (Some (mk_struct_time 2147483648 1 1 0 0 0 0 0 0)) None.

Definition null_link_entry : RawEntry :=
  mk_entry (Some "Wind tender") None None Null None None.

Definition germanium_entry : RawEntry :=
  mk_entry (Some "Germanium prices rise") None None Missing None None.

Definition sample_clock : nat -> nat -> datetime := fun _ _ => sample_now.

Definition sample_fetch (url : string) : result (list RawEntry) :=
  if String.eqb url "https://www.pv-tech.org/feed/"
  then Ok [auction_entry; bad_date_entry; solar_news_entry]
  else if String.eqb url "https://www.irena.org/rss" then Raise ValueError
  else Ok [].

Definition no_fetch (url : string) : result (list RawEntry) := Raise ValueError.

(** The feed source in which every failing feed is replaced by a feed
    without entries. *)
Definition quiet (fetch : string -> result (list RawEntry)) (url : string)
    : result (list RawEntry) :=
  match fetch url with
  | Ok entries => Ok entries
  | Raise _ => Ok []
  end.

(** *** The signals of the impact scorer, as words and quantities *)

(** The text contains [w], in any case, at the beginning of a word, or at
    the end of one. *)
Definition begins_word (w text : string) : Prop :=
  exists pre w' post,
    text = pre +:+ w' +:+ post /\
    Re.word_before (last_char None pre) = false /\ eq_fold w w' = true.

Definition ends_word (w text : string) : Prop :=
  exists pre w' post,
    text = pre +:+ w' +:+ post /\
    eq_fold w w' = true /\ Re.word_after post = false.

Definition gigawatt_signal (text : string) : Prop :=
  mentions_MW (fun n => n = 1000)%N text \/ mentions_word "gigawatt" text.

Definition capacity_signal (text : string) : Prop :=
  mentions_MW (fun n => 300 <= n <= 999)%N text \/ mentions_word "GW" text.

Definition policy_signal (text : string) : Prop :=
  begins_word "policy" text \/ contains_fold "auction result" text
  \/ contains_fold "capacity market" text \/ ends_word "state-aid" text.

(** *** The rule tables as tables of words

    A pattern [\ba|b|...|y|z\b] looks for [a] at the beginning of a word,
    for [z] at the end of one, and for the words in between anywhere. *)

Definition edge_pattern (a : string) (inner : list string) (z : string)
    : regex :=
  Re.alts (bword a) ((word <$> inner) ++ [wordb z]).

Definition edge_signal (a : string) (inner : list string) (z : string)
    (text : string) : Prop :=
  begins_word a text
  \/ (exists w, w ∈ inner /\ contains_fold w text)
  \/ ends_word z text.

Definition word_row : Type := string * list string * string.

Definition row_pattern (row : word_row) : regex :=
  edge_pattern row.1.1 row.1.2 row.2.

Definition row_signal (row : word_row) (text : string) : Prop :=
  edge_signal row.1.1 row.1.2 row.2 text.

(** The first word begins with a word character and the last one ends with
    one, so that [\b] asks for a character that is none on the other
    side. *)
Definition wf_row (row : word_row) : Prop :=
  Re.word_after row.1.1 = true /\
  Re.word_before (last_char None row.2) = true.

Definition compile_rows {A : Type} (table : list (word_row * A))
    : list (regex * A) :=
  (fun rv => (row_pattern rv.1, rv.2)) <$> table.

Definition REGION_WORDS : list (word_row * (string * string)) :=
  [ (("Germany",
      ["German"; "Bundesnetzagentur"; "BNetzA"; "Fraunhofer"; "TenneT";
       "50Hertz"; "Amprion"],
      "TransnetBW"), ("Germany", "DE"));
    (("India",
      ["MNRE"; "SECI"; "CEA"; "CERC"; "Gujarat"; "Maharashtra"; "Rajasthan";
       "Grid-India"],
      "POSOCO"), ("India", "IN"));
    (("Europe", ["European Commission"], "EU"), ("Europe", "EU")) ].

Definition CATEGORY_WORDS : list (word_row * string) :=
  [ (("auction", ["tender"; "RfS"; "RFP"; "bid"], "awarded"), "tender");
    (("policy", ["regulation"; "consultation"; "state-aid"; "EEG"], "grid code"),
     "policy");
    (("project", ["NTP"; "COD"; "commission"], "construction"), "project");
    (("price", ["tariff"; "LCOE"; "module price"], "battery price"), "price");
    (("ancillary", ["capacity market"; "balancing"], "curtailment"), "grid");
    (("OEM", ["inverter"; "module"; "battery"], "technology"), "tech") ].

(** * Properties *)

(** An entry written out in full is well formed when its timestamps are
    missing and its link is not [None]. *)
Ltac sample_wf := split; [exact I | split; [exact I | discriminate]].

(** ** Concatenation of texts *)

Lemma string_app_nil_l s : "" +:+ s = s.
Proof. reflexivity. Qed.

Lemma string_app_cons c a b : String c a +:+ b = String c (a +:+ b).
Proof. reflexivity. Qed.

Lemma string_app_assoc a b c : (a +:+ b) +:+ c = a +:+ (b +:+ c).
Proof.
  induction a as [|x a IH]; [reflexivity|].
  rewrite !string_app_cons, IH. reflexivity.
Qed.

Lemma string_app_length a b :
  String.length (a +:+ b) = (String.length a + String.length b)%nat.
Proof.
  induction a as [|c a IH]; [reflexivity|].
  rewrite string_app_cons. simpl. rewrite IH. reflexivity.
Qed.


(** ** The normalizer *)

Section NormalizeFacts.

Context (chk : string -> bool) (now : datetime).

(** A calendar time fits C [int] values, so [datetime] raises on a tuple
    exactly when the tuple is no calendar time. *)
Lemma valid_fits y m d hh mm ss :
  Time.valid y m d hh mm ss = true ->
  forallb Time.fits_int [y; m; d; hh; mm; ss] = true.
Proof.
  unfold Time.valid, Time.fits_int, Time.days_in_month. intros H.
  repeat (apply andb_prop in H; destruct H as [H ?]).
  assert (Hd : d <= 31).
  { destruct (m =? 2); [destruct (Time.is_leap y)|];
      [lia | lia |
       destruct ((m =? 4) || (m =? 6) || (m =? 9) || (m =? 11)); lia]. }
  simpl. repeat (apply andb_true_intro; split); try reflexivity; lia.
Qed.

Lemma of_struct_time_valid t :
  Time.valid_struct_time t = true ->
  Time.of_struct_time t
  = Ok (mk_datetime (tm_year t) (tm_mon t) (tm_mday t)
          (tm_hour t) (tm_min t) (tm_sec t)).
Proof.
  unfold Time.valid_struct_time, Time.of_struct_time, Time.make. intros H.
  rewrite (valid_fits _ _ _ _ _ _ H), H. reflexivity.
Qed.

Lemma of_struct_time_invalid t :
  Time.valid_struct_time t = false ->
  Time.of_struct_time t = Raise (date_error t).
Proof.
  unfold Time.valid_struct_time, Time.of_struct_time, Time.make, date_error,
    Time.fits_struct_time.
  intros H. rewrite H.
  destruct (forallb Time.fits_int _); reflexivity.
Qed.

Lemma entry_date_returns e :
  wf_entry e -> exists d, entry_date now e = Ok d.
Proof.
  intros (Hp & Hu & _). unfold entry_date.
  destruct (published_parsed e) as [t|] eqn:Ep; simpl.
  - simpl in Hp. rewrite (of_struct_time_valid t Hp). simpl. eauto.
  - destruct (updated_parsed e) as [t|] eqn:Eu; simpl; [|eauto].
    simpl in Hu. rewrite (of_struct_time_valid t Hu). simpl. eauto.
Qed.

(** The fields of the item in terms of the local variables of
    [normalize]. *)
Lemma normalize_fields src e it :
  normalize chk now src e = Ok it ->
  let rc := infer_region_country chk (entry_text e +:+ " " +:+ entry_link e) in
  headline it = entry_title e /\
  region it = rc.1 /\
  country it = (if Str.truthy rc.2 then rc.2
                else if String.eqb rc.1 "Europe" then "EU" else "") /\
  category it = guess_category (entry_text e) /\
  impact_score_1to5 it = score_impact (entry_text e) /\
  tags it = derive_tags (entry_text e) /\
  source_name it = src /\
  source_url it = entry_link e /\
  reliability it = (if bool_decide (src ∈ OFFICIAL) then "official" else "trade").
Proof.
  unfold normalize. fold (entry_title e) (entry_summary e).
  fold (entry_text e). unfold entry_link.
  destruct (entry_date now e) as [d|x]; simpl; [|discriminate].
  destruct (link e) as [| |l]; simpl; try discriminate;
    destruct (infer_region_country chk _) as [r c]; simpl;
    intros [= <-]; simpl; repeat split; reflexivity.
Qed.

Lemma normalize_returns src e :
  wf_entry e -> exists it, normalize chk now src e = Ok it.
Proof.
  intros Hwf. destruct (entry_date_returns e Hwf) as [d Hd].
  destruct Hwf as (_ & _ & Hl).
  unfold normalize. rewrite Hd. simpl.
  destruct (link e) as [| |l]; simpl; [|congruence|];
    destruct (infer_region_country chk _) as [r c]; eauto.
Qed.

(** [datetime] refuses a tuple that is no calendar time, with
    [ValueError] or, when a component is too large for a C [int], with
    [OverflowError]; this is why the timestamps of an entry are taken to be
    well formed. *)
Remark february_30_is_refused :
  Time.make 2024 2 30 0 0 0 = Raise ValueError /\
  Time.make 2147483648 1 1 0 0 0 = Raise OverflowError /\
  Time.make 2147483647 1 1 0 0 0 = Raise ValueError /\
  Time.make 2024 2 30 0 0 2147483648 = Raise OverflowError.
Proof. repeat split; reflexivity. Qed.

End NormalizeFacts.

(** ** The impact scorer *)

Example score_500MW :
  score_impact "Germany awards 500 MW solar auction Bundesnetzagentur confirms results" = 4.
Proof. vm_compute. reflexivity. Qed.

Lemma score_impact_cases text :
  score_impact text = 3 \/ score_impact text = 4 \/ score_impact text = 5.
Proof.
  unfold score_impact.
  destruct (Re.search true RX_CAPACITY text), (Re.search true RX_GIGAWATT text),
    (Re.search true RX_POLICY text); simpl; auto.
Qed.

Lemma score_impact_gigawatt text :
  Re.search true RX_GIGAWATT text = true -> score_impact text = 5.
Proof.
  intros H. unfold score_impact. rewrite H.
  destruct (Re.search true RX_CAPACITY text), (Re.search true RX_POLICY text);
    reflexivity.
Qed.

Lemma score_impact_capacity text :
  Re.search true RX_CAPACITY text = true ->
  Re.search true RX_GIGAWATT text = false ->
  score_impact text = 4.
Proof.
  intros H1 H2. unfold score_impact. rewrite H1, H2.
  destruct (Re.search true RX_POLICY text); reflexivity.
Qed.

Lemma score_impact_policy text :
  Re.search true RX_POLICY text = true ->
  Re.search true RX_GIGAWATT text = false ->
  score_impact text = 4.
Proof.
  intros H1 H2. unfold score_impact. rewrite H1, H2.
  destruct (Re.search true RX_CAPACITY text); reflexivity.
Qed.

Lemma score_impact_baseline text :
  Re.search true RX_CAPACITY text = false ->
  Re.search true RX_GIGAWATT text = false ->
  Re.search true RX_POLICY text = false ->
  score_impact text = 3.
Proof. intros H1 H2 H3. unfold score_impact. rewrite H1, H2, H3. reflexivity. Qed.

(** C9: the score is 3, 4 or 5 for every text, so no item carries a score
    of 1 or 2: every item that [normalize] returns has a score of at least
    3 and at most 5. *)
Theorem impact_score_is_3_4_or_5 :
  (forall text,
     score_impact text = 3 \/ score_impact text = 4 \/ score_impact text = 5) /\
  (forall chk now src e it,
     normalize chk now src e = Ok it ->
     3 <= impact_score_1to5 it <= 5 /\
     (impact_score_1to5 it = 3 \/ impact_score_1to5 it = 4 \/ impact_score_1to5 it = 5)).
Proof.
  split; [exact score_impact_cases|].
  intros chk now src e it H.
  destruct (normalize_fields chk now src e it H) as (_ & _ & _ & _ & Hs & _).
  rewrite Hs. generalize (score_impact_cases (entry_text e)).
  generalize (score_impact (entry_text e)). intros z Hc.
  split; [lia | exact Hc].
Qed.

Example normalize_auction_entry :
  normalize accept_bracketed sample_now "Bundesnetzagentur" auction_entry
  = Ok auction_item.
Proof. vm_compute. reflexivity. Qed.

Lemma impact_score_is_3_4_or_5_witness :
  normalize accept_bracketed sample_now "Bundesnetzagentur" auction_entry
  = Ok auction_item /\
  3 <= impact_score_1to5 auction_item <= 5.
Proof.
  split; [vm_compute; reflexivity|].
  refine (proj1 (proj2 impact_score_is_3_4_or_5 accept_bracketed sample_now
                   "Bundesnetzagentur" auction_entry auction_item _)).
  vm_compute; reflexivity.
Defined.

(** ** Normalization of every entry *)

(** C6, as stated, fails: [normalize] raises on an entry whose timestamp
    is the 30th of February, on one whose year does not fit a C [int], and
    on one whose link is [None]; so it does not return an item for every
    entry. *)
Lemma malformed_entry_raises :
  normalize accept_bracketed sample_now "PV-Tech" bad_date_entry
  = Raise ValueError /\
  normalize accept_bracketed sample_now "PV-Tech" huge_year_entry
  = Raise OverflowError /\
  normalize accept_bracketed sample_now "PV-Tech" null_link_entry
  = Raise TypeError /\
  ~ (forall chk now src e, exists it, normalize chk now src e = Ok it).
Proof.
  split; [vm_compute; reflexivity|].
  split; [vm_compute; reflexivity|].
  split; [vm_compute; reflexivity|].
  intros H.
  destruct (H accept_bracketed sample_now "PV-Tech" bad_date_entry) as [it E].
  vm_compute in E. discriminate E.
Qed.

(** C6, amended: for every source name and every entry, whichever of its
    fields are missing, [normalize] returns one item and raises nothing,
    provided that the timestamp it uses - the published one, otherwise the
    updated one - is a calendar time when the entry has it, and that the
    link is not [None]. *)
Theorem normalize_never_raises chk now src e :
  (forall t, entry_timestamp e = Some t -> Time.valid_struct_time t = true) ->
  link e <> Null ->
  exists it,
    normalize chk now src e = Ok it /\
    forall it', normalize chk now src e = Ok it' -> it' = it.
Proof.
  intros Ht Hl.
  assert (Hd : exists d, entry_date now e = Ok d).
  { unfold entry_date. fold (entry_timestamp e).
    destruct (entry_timestamp e) as [t|]; [|eauto].
    rewrite (of_struct_time_valid t (Ht t eq_refl)). simpl. eauto. }
  destruct Hd as [d Hd].
  assert (Hit : exists it, normalize chk now src e = Ok it).
  { unfold normalize. rewrite Hd. simpl.
    destruct (link e) as [| |l]; simpl; [|congruence|];
      destruct (infer_region_country chk _) as [r c]; eauto. }
  destruct Hit as [it Hit].
  exists it. split; [exact Hit|]. intros it' Hit'. congruence.
Qed.

Lemma normalize_never_raises_witness :
  (forall t, entry_timestamp empty_entry = Some t ->
             Time.valid_struct_time t = true) /\
  link empty_entry <> Null /\
  exists it,
    normalize accept_bracketed sample_now "PV-Tech" empty_entry = Ok it /\
    forall it',
      normalize accept_bracketed sample_now "PV-Tech" empty_entry = Ok it' ->
      it' = it.
Proof.
  assert (Ht : forall t, entry_timestamp empty_entry = Some t ->
                         Time.valid_struct_time t = true).
  { intros t H. discriminate H. }
  assert (Hl : link empty_entry <> Null) by discriminate.
  split; [exact Ht|]. split; [exact Hl|].
  exact (normalize_never_raises accept_bracketed sample_now "PV-Tech"
           empty_entry Ht Hl).
Defined.

(** C5: the entry without any field, from a source outside the official
    set, gives an item with empty headline, region Global, empty country,
    category market, score 3, the baseline tag alone and reliability
    trade. *)
Theorem normalize_empty_entry chk now src :
  src ∉ OFFICIAL ->
  exists it,
    normalize chk now src empty_entry = Ok it /\
    headline it = "" /\ region it = "Global" /\ country it = "" /\
    category it = "market" /\ impact_score_1to5 it = 3 /\
    tags it = ["utility-scale"] /\ reliability it = "trade".
Proof.
  intros Hsrc.
  destruct (normalize_returns chk now src empty_entry) as [it Hit];
    [sample_wf|].
  exists it. split; [exact Hit|].
  destruct (normalize_fields chk now src _ it Hit)
    as (Hh & Hr & Hc & Hcat & Hs & Ht & _ & _ & Hrel).
  rewrite Hh, Hr, Hc, Hcat, Hs, Ht, Hrel.
  rewrite (bool_decide_eq_false_2 _ Hsrc).
  vm_compute. repeat split; reflexivity.
Qed.

Lemma normalize_empty_entry_witness :
("PV-Tech" ∉ OFFICIAL) /\
  exists it,
    normalize accept_bracketed sample_now "PV-Tech" empty_entry = Ok it /\
    headline it = "" /\ region it = "Global" /\ country it = "" /\
    category it = "market" /\ impact_score_1to5 it = 3 /\
    tags it = ["utility-scale"] /\ reliability it = "trade".
Proof.
  assert (H : "PV-Tech" ∉ OFFICIAL).
  { apply (bool_decide_unpack _). vm_compute. exact I. }
  split; [exact H|].
  exact (normalize_empty_entry accept_bracketed sample_now "PV-Tech" H).
Defined.

(** C7: the entry titled "Germany awards 500 MW solar auction" with the
    summary "Bundesnetzagentur confirms results", from the source
    Bundesnetzagentur, gives region Germany, country DE, category tender,
    score 4, reliability official and the tags utility-scale and PV,
    whatever its link and its timestamps are, as long as the entry is well
    formed. *)
Theorem normalize_auction_example chk now e :
  title e = Some "Germany awards 500 MW solar auction" ->
  summary e = Some "Bundesnetzagentur confirms results" ->
  wf_entry e ->
  exists it,
    normalize chk now "Bundesnetzagentur" e = Ok it /\
    region it = "Germany" /\ country it = "DE" /\ category it = "tender" /\
    impact_score_1to5 it = 4 /\ reliability it = "official" /\
    "utility-scale" ∈ tags it /\ "PV" ∈ tags it.
Proof.
  intros Ht Hs Hwf.
  destruct (normalize_returns chk now "Bundesnetzagentur" e Hwf) as [it Hit].
  exists it. split; [exact Hit|].
  destruct (normalize_fields chk now _ e it Hit)
    as (_ & Hr & Hc & Hcat & Hsc & Htags & _ & _ & Hrel).
  rewrite Hr, Hc, Hcat, Hsc, Htags, Hrel.
  unfold entry_text, entry_title, entry_summary. rewrite Ht, Hs.
  generalize (entry_link e). intros lnk.
  assert (Hrc : infer_region_country chk
            ((Str.strip (or_str (Some "Germany awards 500 MW solar auction") "")
              +:+ " "
              +:+ Str.strip (or_str (Some "Bundesnetzagentur confirms results")
                               (or_str (subtitle e) "")))
             +:+ " " +:+ lnk) = ("Germany", "DE")).
  { vm_compute. reflexivity. }
  rewrite Hrc. vm_compute.
  repeat split; try reflexivity.
  - apply list_elem_of_here.
  - apply list_elem_of_further, list_elem_of_here.
Qed.

Lemma normalize_auction_example_witness :
  title auction_entry = Some "Germany awards 500 MW solar auction" /\
  summary auction_entry = Some "Bundesnetzagentur confirms results" /\
  wf_entry auction_entry /\
  exists it,
    normalize accept_bracketed sample_now "Bundesnetzagentur" auction_entry = Ok it /\
    region it = "Germany" /\ country it = "DE" /\ category it = "tender" /\
    impact_score_1to5 it = 4 /\ reliability it = "official" /\
    "utility-scale" ∈ tags it /\ "PV" ∈ tags it.
Proof.
  split; [reflexivity|]. split; [reflexivity|]. split; [sample_wf|].
  apply (normalize_auction_example accept_bracketed sample_now auction_entry);
    [reflexivity | reflexivity | sample_wf].
Defined.

(** C10: the reliability of an item is official exactly when its source
    name is one of Bundesnetzagentur, IEA, IRENA and EU Energy, and trade
    otherwise; the registry's source IEA News is not among them, so its
    items are trade. *)
Theorem reliability_official_iff chk now src e it :
  normalize chk now src e = Ok it ->
  (reliability it = "official" <->
   source_name it ∈ ["Bundesnetzagentur"; "IEA"; "IRENA"; "EU Energy"]) /\
  (reliability it = "official" \/ reliability it = "trade") /\
  "IEA News" ∈ (FEEDS.*1) /\
  (src = "IEA News" -> reliability it = "trade").
Proof.
  intros Hit.
  destruct (normalize_fields chk now src e it Hit)
    as (_ & _ & _ & _ & _ & _ & Hsrc & _ & Hrel).
  rewrite Hrel, Hsrc. fold OFFICIAL.
  repeat split.
  - case_bool_decide; [tauto | discriminate].
  - intros H. rewrite (bool_decide_eq_true_2 _ H). reflexivity.
  - case_bool_decide; auto.
  - apply (bool_decide_unpack _). vm_compute. exact I.
  - intros ->. vm_compute. reflexivity.
Qed.

Lemma reliability_official_iff_witness :
  normalize accept_bracketed sample_now "Bundesnetzagentur" auction_entry
  = Ok auction_item /\
  (reliability auction_item = "official" <->
   source_name auction_item ∈ ["Bundesnetzagentur"; "IEA"; "IRENA"; "EU Energy"]).
Proof.
  assert (H : normalize accept_bracketed sample_now "Bundesnetzagentur"
                auction_entry = Ok auction_item) by (vm_compute; reflexivity).
  split; [exact H|].
  exact (proj1 (reliability_official_iff accept_bracketed sample_now
                  "Bundesnetzagentur" auction_entry auction_item H)).
Defined.

(** ** The geography classifier *)

(** The first rule that matches decides, whatever the later rules do. *)
Lemma first_match_spec {A : Type} (rules : list (regex * A)) text :
  (first_match rules text = None /\
   forall k rule, rules !! k = Some rule -> Re.search true rule.1 text = false)
  \/
  (exists k rule,
     rules !! k = Some rule /\ Re.search true rule.1 text = true /\
     (forall k' rule', (k' < k)%nat -> rules !! k' = Some rule' ->
                       Re.search true rule'.1 text = false) /\
     first_match rules text = Some rule.2).
Proof.
  induction rules as [|[rx v] rules IH]; simpl.
  - left. split; [reflexivity|]. intros k rule H. discriminate.
  - destruct (Re.search true rx text) eqn:E.
    + right. exists 0%nat, (rx, v). repeat split; auto. intros k' rule' Hlt. lia.
    + destruct IH as [[Hnone Hall] | (k & rule & Hk & Hm & Hbefore & Hres)].
      * left. split; [exact Hnone|]. intros [|k] rule H; simpl in H.
        -- injection H as <-. exact E.
        -- eauto.
      * right. exists (S k), rule. repeat split; auto.
        intros [|k'] rule' Hlt H; simpl in H.
        -- injection H as <-. exact E.
        -- apply (Hbefore k'); [lia | exact H].
Qed.

Lemma infer_region_country_rule chk text rc :
  first_match REGION_MAP text = Some rc -> infer_region_country chk text = rc.
Proof. intros H. unfold infer_region_country. rewrite H. reflexivity. Qed.

(** Without a matching rule the answer is that of the domain test. *)
Lemma infer_region_country_fallback chk text :
  first_match REGION_MAP text = None ->
  infer_region_country chk text
  = if Str.endswith ".de"
         (match Url.netloc chk text with Ok h => h | Raise _ => "" end)
    then ("Germany", "DE") else ("Global", "").
Proof. intros H. unfold infer_region_country. rewrite H. reflexivity. Qed.

Lemma REGION_MAP_values_differ i j ri rj :
  REGION_MAP !! i = Some ri -> REGION_MAP !! j = Some rj ->
  i <> j -> ri.2 <> rj.2.
Proof.
  intros Hi Hj Hne.
  destruct i as [|[|[|i]]]; simpl in Hi; try discriminate;
    destruct j as [|[|[|j]]]; simpl in Hj; try discriminate;
    try (exfalso; apply Hne; reflexivity);
    injection Hi as <-; injection Hj as <-; simpl; discriminate.
Qed.

(** C8: when a text matches two rules of [REGION_MAP], the classifier
    answers with the pair of a rule listed no later than the earlier of the
    two, namely of the first rule that matches, and not with the pair of
    the later one. *)
Theorem region_rules_first_match_wins chk text i j ri rj :
  REGION_MAP !! i = Some ri -> REGION_MAP !! j = Some rj -> (i < j)%nat ->
  Re.search true ri.1 text = true -> Re.search true rj.1 text = true ->
  exists k rk,
    (k <= i)%nat /\ REGION_MAP !! k = Some rk /\
    Re.search true rk.1 text = true /\
    (forall k' rk', (k' < k)%nat -> REGION_MAP !! k' = Some rk' ->
                    Re.search true rk'.1 text = false) /\
    infer_region_country chk text = rk.2 /\
    infer_region_country chk text <> rj.2.
Proof.
  intros Hi Hj Hlt Hmi Hmj.
  destruct (first_match_spec REGION_MAP text)
    as [[_ Hall] | (k & rk & Hk & Hm & Hbefore & Hres)].
  - rewrite (Hall i ri Hi) in Hmi. discriminate.
  - assert (Hki : (k <= i)%nat).
    { destruct (Nat.le_gt_cases k i) as [Hle|Hgt]; [exact Hle|].
      rewrite (Hbefore i ri Hgt Hi) in Hmi. discriminate. }
    exists k, rk.
    rewrite (infer_region_country_rule chk text rk.2 Hres).
    repeat split; auto.
    apply (REGION_MAP_values_differ k j rk rj Hk Hj). lia.
Qed.

Lemma region_rules_first_match_wins_witness :
  exists k rk,
    (k <= 0)%nat /\ REGION_MAP !! k = Some rk /\
    Re.search true rk.1 "German developer wins India tender" = true /\
    (forall k' rk', (k' < k)%nat -> REGION_MAP !! k' = Some rk' ->
                    Re.search true rk'.1 "German developer wins India tender" = false) /\
    infer_region_country accept_bracketed "German developer wins India tender" = rk.2 /\
    infer_region_country accept_bracketed "German developer wins India tender"
    <> (RX_INDIA, ("India", "IN")).2.
Proof.
  apply (region_rules_first_match_wins accept_bracketed
           "German developer wins India tender" 0 1
           (RX_GERMANY, ("Germany", "DE")) (RX_INDIA, ("India", "IN")));
    [reflexivity | reflexivity | lia
     | vm_compute; reflexivity | vm_compute; reflexivity].
Defined.

Example germany_before_india :
  infer_region_country accept_bracketed "German developer wins India tender"
  = ("Germany", "DE").
Proof. vm_compute. reflexivity. Qed.

(** The domain test works on a link alone ... *)
Example link_alone_is_german chk :
  infer_region_country chk "https://www.pv-magazine.de/x" = ("Germany", "DE").
Proof. vm_compute. reflexivity. Qed.

(** ... but [normalize] hands over the title, the summary and the link in
    one text, which [urlparse] does not read as a URL. *)
Lemma netloc_of_plain_text chk :
  Url.netloc chk "Solar news  https://www.pv-magazine.de/x" = Ok "".
Proof. vm_compute. reflexivity. Qed.

(** Only when title and summary are both empty does the text start with
    the link, after the blanks that [urlparse] strips. *)
Example link_only_entry_is_german chk now :
  exists it,
    normalize chk now "PV-Tech" link_only_entry = Ok it /\
    region it = "Germany" /\ country it = "DE".
Proof.
  destruct (normalize_returns chk now "PV-Tech" link_only_entry) as [it Hit];
    [sample_wf|].
  exists it. split; [exact Hit|].
  destruct (normalize_fields chk now _ _ it Hit) as (_ & Hr & Hc & _).
  rewrite Hr, Hc. vm_compute. split; reflexivity.
Qed.

Lemma alnum_not_unsafe c : is_ascii_alnum c = true -> Url.is_unsafe c = false.
Proof. destruct c as [[] [] [] [] [] [] [] []]; intros H; try discriminate H; reflexivity. Qed.

Lemma alnum_not_colon c : is_ascii_alnum c = true -> Ascii.eqb c ":" = false.
Proof. destruct c as [[] [] [] [] [] [] [] []]; intros H; try discriminate H; reflexivity. Qed.

Lemma alpha_is_alnum c : Url.is_ascii_alpha c = true -> is_ascii_alnum c = true.
Proof.
  unfold Url.is_ascii_alpha, is_ascii_alnum. intros ->. reflexivity.
Qed.

Lemma alpha_not_c0 c : Url.is_ascii_alpha c = true -> Url.is_c0_or_space c = false.
Proof. destruct c as [[] [] [] [] [] [] [] []]; intros H; try discriminate H; reflexivity. Qed.

Lemma alpha_not_slash c s :
  Url.is_ascii_alpha c = true -> Url.after_slashes (String c s) = None.
Proof. destruct c as [[] [] [] [] [] [] [] []]; intros H; try discriminate H; reflexivity. Qed.

Lemma filter_word_space keep w s :
  (forall c, is_ascii_alnum c = true -> keep c = true) ->
  Str.forallb is_ascii_alnum w = true ->
  Str.filter keep (w +:+ String " " s)
  = w +:+ Str.filter keep (String " " s).
Proof.
  intros Hkeep. induction w as [|c w IH]; intros Hw; [reflexivity|].
  simpl in Hw. destruct (is_ascii_alnum c) eqn:E; [|discriminate].
  rewrite !string_app_cons. simpl. rewrite (Hkeep c E), (IH Hw). reflexivity.
Qed.

(** Before the first colon of a text that begins with a word and a space
    there is a space, which no scheme contains. *)
Lemma split_colon_word_space w s :
  Str.forallb is_ascii_alnum w = true ->
  match Str.split_colon (w +:+ String " " s) with
  | Some (pre, _) => Str.forallb Url.is_scheme_char pre = false
  | None => True
  end.
Proof.
  induction w as [|c w IH]; intros Hw.
  - rewrite string_app_nil_l. simpl.
    destruct (Str.split_colon s) as [[a b]|]; [reflexivity | exact I].
  - simpl in Hw. destruct (is_ascii_alnum c) eqn:E; [|discriminate].
    rewrite string_app_cons. simpl. rewrite (alnum_not_colon c E).
    specialize (IH Hw).
    destruct (Str.split_colon (w +:+ String " " s)) as [[a b]|]; [|exact I].
    simpl. rewrite IH. destruct (Url.is_scheme_char c); reflexivity.
Qed.

Lemma drop_scheme_word_space c w s :
  Str.forallb is_ascii_alnum (String c w) = true ->
  Url.drop_scheme (String c w +:+ String " " s) = String c w +:+ String " " s.
Proof.
  intros Hw. unfold Url.drop_scheme.
  pose proof (split_colon_word_space (String c w) s Hw) as H.
  destruct (Str.split_colon (String c w +:+ String " " s)) as [[pre rest]|];
    [|reflexivity].
  destruct pre as [|x pre]; [reflexivity|].
  rewrite H, andb_false_r. reflexivity.
Qed.

(** A text that begins with a word and a space has no network location,
    whatever follows. *)
Lemma netloc_word_space chk c w s :
  Url.is_ascii_alpha c = true -> Str.forallb is_ascii_alnum w = true ->
  Url.netloc chk (String c w +:+ String " " s) = Ok "".
Proof.
  intros Hc Hw. unfold Url.netloc.
  assert (Hcw : Str.forallb is_ascii_alnum (String c w) = true).
  { simpl. rewrite (alpha_is_alnum c Hc). exact Hw. }
  rewrite string_app_cons. simpl Url.lstrip_c0. rewrite (alpha_not_c0 c Hc).
  rewrite <- string_app_cons.
  rewrite (filter_word_space _ (String c w) s);
    [| intros x Hx; rewrite (alnum_not_unsafe x Hx); reflexivity | exact Hcw].
  change (Str.filter (fun c0 => negb (Url.is_unsafe c0)) (String " " s))
    with (String " " (Str.filter (fun c0 => negb (Url.is_unsafe c0)) s)).
  rewrite (drop_scheme_word_space c w _ Hcw).
  rewrite string_app_cons, (alpha_not_slash c _ Hc). reflexivity.
Qed.

(** When the headline begins with a plain word and no rule matches, the
    answer is Global whatever the link is: its domain is never looked
    at. *)
Lemma headline_hides_link_domain chk e :
  starts_with_word (entry_title e) ->
  first_match REGION_MAP (entry_text e +:+ " " +:+ entry_link e) = None ->
  infer_region_country chk (entry_text e +:+ " " +:+ entry_link e)
  = ("Global", "").
Proof.
  intros (c & w & rest & Ht & Hc & Hw & Hrest) Hnone.
  rewrite (infer_region_country_fallback chk _ Hnone).
  unfold entry_text. rewrite Ht, !string_app_assoc.
  assert (Hsp : exists tail,
            rest +:+ " " +:+ entry_summary e +:+ " " +:+ entry_link e
            = String " " tail).
  { destruct Hrest as [-> | [r ->]]; eexists; reflexivity. }
  destruct Hsp as [tail ->].
  rewrite (netloc_word_space chk c w tail Hc Hw). reflexivity.
Qed.

(** C2: for the entry titled "Solar news" with the link
    https://www.pv-magazine.de/x no geography rule matches the text with
    the link appended, and the network location of the link ends in [.de];
    yet the classifier, called as [normalize] calls it, answers Global with
    an empty country, because the network location of the whole text is
    empty. *)
Theorem link_domain_is_not_consulted chk now :
  first_match REGION_MAP
    (entry_text solar_news_entry +:+ " " +:+ entry_link solar_news_entry) = None /\
  Url.netloc chk (entry_link solar_news_entry) = Ok "www.pv-magazine.de" /\
  Str.endswith ".de" "www.pv-magazine.de" = true /\
  infer_region_country chk
    (entry_text solar_news_entry +:+ " " +:+ entry_link solar_news_entry)
  = ("Global", "") /\
  exists it,
    normalize chk now "PV-Tech" solar_news_entry = Ok it /\
    region it = "Global" /\ country it = "".
Proof.
  split; [vm_compute; reflexivity|].
  split; [vm_compute; reflexivity|].
  split; [vm_compute; reflexivity|].
  split; [vm_compute; reflexivity|].
  destruct (normalize_returns chk now "PV-Tech" solar_news_entry) as [it Hit];
    [sample_wf|].
  exists it. split; [exact Hit|].
  destruct (normalize_fields chk now _ _ it Hit) as (_ & Hr & Hc & _).
  rewrite Hr, Hc. vm_compute. split; reflexivity.
Qed.

(** ** The deduplicator *)

Lemma fold_dedup_step items seen acc :
  (fold_left dedup_step items (seen, acc)).2 = acc ++ dedup_from seen items.
Proof.
  revert seen acc. induction items as [|it items IH]; intros seen acc; simpl.
  - rewrite app_nil_r. reflexivity.
  - unfold dedup_step at 2; simpl.
    destruct (bool_decide (dedup_key it ∈ seen)); simpl.
    + apply IH.
    + rewrite IH, <- app_assoc. reflexivity.
Qed.

Lemma deduplicate_dedup_from items : deduplicate items = dedup_from ∅ items.
Proof. unfold deduplicate. rewrite fold_dedup_step. reflexivity. Qed.

Lemma dedup_from_sublist seen items : sublist (dedup_from seen items) items.
Proof.
  revert seen. induction items as [|it items IH]; intros seen; simpl.
  - constructor.
  - destruct (bool_decide (dedup_key it ∈ seen)).
    + apply sublist_cons, IH.
    + apply sublist_skip, IH.
Qed.

Lemma dedup_from_fresh seen items it :
  it ∈ dedup_from seen items -> dedup_key it ∉ seen.
Proof.
  revert seen. induction items as [|x items IH]; intros seen; simpl.
  - intros H. inversion H.
  - case_bool_decide as Hx.
    + apply IH.
    + intros [-> | Hin]%elem_of_cons; [exact Hx|].
      apply IH in Hin. intros Hs. apply Hin, elem_of_union_r, Hs.
Qed.

Lemma dedup_from_NoDup seen items :
  NoDup (dedup_key <$> dedup_from seen items).
Proof.
  revert seen. induction items as [|x items IH]; intros seen; simpl.
  - constructor.
  - case_bool_decide as Hx; [apply IH|].
    rewrite fmap_cons. apply NoDup_cons. split; [|apply IH].
    intros (y & Hy & Hin)%list_elem_of_fmap.
    apply dedup_from_fresh in Hin. apply Hin. rewrite <- Hy.
    apply elem_of_union_l, elem_of_singleton. reflexivity.
Qed.

(** Of the items with a given key the loop keeps the first one, unless the
    key was seen before. *)
Lemma dedup_from_filter k seen items :
  filter (has_key k) (dedup_from seen items)
  = if bool_decide (k ∈ seen) then [] else take 1 (filter (has_key k) items).
Proof.
  revert seen. induction items as [|x items IH]; intros seen; simpl.
  - destruct (bool_decide (k ∈ seen)); reflexivity.
  - case_bool_decide as Hx.
    + rewrite IH. case_bool_decide as Hk; [reflexivity|].
      rewrite (filter_cons_False (has_key k)); [reflexivity|].
      unfold has_key. intros Hkx. subst k. contradiction.
    + destruct (decide (has_key k x)) as [Hkx|Hkx].
      * rewrite !(filter_cons_True (has_key k)) by exact Hkx.
        rewrite IH. unfold has_key in Hkx. subst k.
        rewrite bool_decide_eq_true_2
          by (apply elem_of_union_l, elem_of_singleton; reflexivity).
        rewrite bool_decide_eq_false_2 by exact Hx. reflexivity.
      * rewrite !(filter_cons_False (has_key k)) by exact Hkx.
        rewrite IH. unfold has_key in Hkx.
        case_bool_decide as H1; case_bool_decide as H2; try reflexivity.
        -- exfalso. apply elem_of_union in H1 as [H1|H1]; [|contradiction].
           apply elem_of_singleton in H1. congruence.
        -- exfalso. apply H1, elem_of_union_r, H2.
Qed.

Lemma dedup_from_all_seen seen items :
  (forall it, it ∈ items -> dedup_key it ∈ seen) -> dedup_from seen items = [].
Proof.
  induction items as [|x items IH]; intros Hall; simpl; [reflexivity|].
  rewrite bool_decide_eq_true_2 by (apply Hall; left).
  apply IH. intros it Hin. apply Hall. right. exact Hin.
Qed.

(** The keys seen after a run over [l1]. *)
Lemma seen_after_nil (seen : gset (string * string)) :
  seen = list_to_set (dedup_key <$> ([] : list Item)) ∪ seen.
Proof. simpl. symmetry. apply (left_id_L ∅ (∪)). Qed.

Lemma seen_after_known (x : Item) (l : list Item) (seen : gset (string * string)) :
  dedup_key x ∈ seen ->
  list_to_set (dedup_key <$> l) ∪ seen
  = list_to_set (dedup_key <$> x :: l) ∪ seen.
Proof.
  intros Hx. apply set_eq. intros k. simpl.
  rewrite !elem_of_union, elem_of_singleton. split.
  - intros [H|H]; auto.
  - intros [[-> | H] | H]; auto.
Qed.

Lemma seen_after_new (x : Item) (l : list Item) (seen : gset (string * string)) :
  list_to_set (dedup_key <$> l) ∪ ({[dedup_key x]} ∪ seen)
  = list_to_set (dedup_key <$> x :: l) ∪ seen.
Proof.
  apply set_eq. intros k. simpl.
  rewrite !elem_of_union, elem_of_singleton. tauto.
Qed.

Lemma dedup_from_app seen l1 l2 :
  dedup_from seen (l1 ++ l2)
  = dedup_from seen l1
    ++ dedup_from (list_to_set (dedup_key <$> l1) ∪ seen) l2.
Proof.
  revert seen. induction l1 as [|x l1 IH]; intros seen.
  - rewrite <- seen_after_nil. reflexivity.
  - change ((x :: l1) ++ l2) with (x :: (l1 ++ l2)).
    cbn [dedup_from]. case_bool_decide as Hx.
    + rewrite IH, (seen_after_known x l1 seen Hx). reflexivity.
    + rewrite IH, seen_after_new. reflexivity.
Qed.

(** C4: the deduplicator keeps, for each pair of headline and link, the
    first item that carries it and drops the later ones; the items kept
    stand in their original order; and a sequence followed by itself
    deduplicates to what the sequence alone deduplicates to. *)
Theorem deduplicate_keeps_first_occurrences items :
  sublist (deduplicate items) items /\
  NoDup (dedup_key <$> deduplicate items) /\
  (forall k, filter (has_key k) (deduplicate items)
             = take 1 (filter (has_key k) items)) /\
  deduplicate (items ++ items) = deduplicate items.
Proof.
  rewrite !deduplicate_dedup_from. repeat split.
  - apply dedup_from_sublist.
  - apply dedup_from_NoDup.
  - intros k. rewrite dedup_from_filter.
    rewrite bool_decide_eq_false_2 by apply not_elem_of_empty. reflexivity.
  - rewrite dedup_from_app.
    rewrite (dedup_from_all_seen (list_to_set (dedup_key <$> items) ∪ ∅) items);
      [apply app_nil_r|].
    intros it Hin. apply elem_of_union_l, elem_of_list_to_set.
    apply list_elem_of_fmap_2. exact Hin.
Qed.

(** Exact equality of the keys: a headline that differs in case is another
    key. *)
Example dedup_keys_are_case_sensitive :
  dedup_key auction_item
  <> dedup_key {| date_utc := ""; headline := "GERMANY AWARDS 500 MW SOLAR AUCTION";
                  summary_80w := ""; region := ""; country := ""; category := "";
                  subtopic := ""; capacity_MW := 0; storage_MWh := 0;
                  project_stage := ""; tariff_or_price_local := "";
                  tariff_or_price_usd := ""; entities := [];
                  location := mk_location "" "" ""; effective_date := "";
                  impact_score_1to5 := 3; tags := []; source_name := "";
                  source_url := ""; reliability := ""; notes := "" |}.
Proof. discriminate. Qed.

(** ** The ranker *)

Section StableSortFacts.

Context {A : Type} (geb : A -> A -> bool).

Let ge (a b : A) : Prop := geb a b = true.

Lemma insert_desc_perm x l : insert_desc geb x l ≡ₚ x :: l.
Proof.
  induction l as [|y l IH]; simpl; [reflexivity|].
  destruct (geb x y); [reflexivity|].
  rewrite IH. apply Permutation_swap.
Qed.

Lemma stable_sort_desc_perm l : stable_sort_desc geb l ≡ₚ l.
Proof.
  induction l as [|x l IH]; simpl; [reflexivity|].
  rewrite insert_desc_perm, IH. reflexivity.
Qed.

(** Stability: items that the order does not tell apart keep their
    places relative to one another. *)
Lemma insert_desc_filter (P : A -> Prop) `{!forall a, Decision (P a)} x l :
  (forall a b, P a -> P b -> geb a b = true) ->
  filter P (insert_desc geb x l) = filter P (x :: l).
Proof.
  intros Htied. induction l as [|y l IH]; simpl; [reflexivity|].
  destruct (geb x y) eqn:E; [reflexivity|].
  rewrite (filter_cons P y), IH, !(filter_cons P).
  destruct (decide (P x)) as [Hx|Hx], (decide (P y)) as [Hy|Hy];
    try reflexivity.
  rewrite (Htied x y Hx Hy) in E. discriminate.
Qed.

Lemma stable_sort_desc_filter (P : A -> Prop) `{!forall a, Decision (P a)} l :
  (forall a b, P a -> P b -> geb a b = true) ->
  filter P (stable_sort_desc geb l) = filter P l.
Proof.
  intros Htied. induction l as [|x l IH]; simpl; [reflexivity|].
  rewrite insert_desc_filter by exact Htied.
  rewrite !(filter_cons P), IH. reflexivity.
Qed.

Hypothesis geb_total : forall a b, geb a b = true \/ geb b a = true.
Hypothesis geb_trans :
  forall a b c, geb a b = true -> geb b c = true -> geb a c = true.

Lemma insert_desc_sorted x l :
  StronglySorted ge l -> StronglySorted ge (insert_desc geb x l).
Proof.
  induction 1 as [|y l Hl IH Hy]; simpl.
  - repeat constructor.
  - destruct (geb x y) eqn:E.
    + constructor; [constructor; assumption|].
      constructor; [exact E|].
      eapply Forall_impl; [exact Hy|]. intros z Hz. exact (geb_trans x y z E Hz).
    + constructor; [exact IH|].
      rewrite insert_desc_perm. constructor; [|exact Hy].
      destruct (geb_total x y) as [H|H]; [congruence | exact H].
Qed.

Lemma stable_sort_desc_sorted l : StronglySorted ge (stable_sort_desc geb l).
Proof.
  induction l as [|x l IH]; simpl; [constructor|].
  apply insert_desc_sorted, IH.
Qed.

End StableSortFacts.

Lemma StronglySorted_filter {A : Type} (R : relation A) (P : A -> Prop)
    `{!forall a, Decision (P a)} l :
  StronglySorted R l -> StronglySorted R (filter P l).
Proof.
  induction 1 as [|x l Hl IH Hx]; [constructor|].
  rewrite filter_cons. destruct (decide (P x)); [|exact IH].
  constructor; [exact IH|].
  apply Forall_forall. intros y [_ Hy]%list_elem_of_filter.
  rewrite Forall_forall in Hx. exact (Hx y Hy).
Qed.

Lemma string_leb_refl s : String.leb s s = true.
Proof. apply Is_true_true. exact (reflexivity (R := String.le) s). Qed.

Lemma string_leb_ltb s1 s2 :
  String.leb s1 s2 = true <-> String.ltb s1 s2 = true \/ s1 = s2.
Proof.
  split.
  - unfold String.leb, String.ltb.
    destruct (String.compare s1 s2) eqn:E; [|tauto|discriminate].
    apply String.compare_eq_iff in E. tauto.
  - intros [H | ->]; [|apply string_leb_refl].
    unfold String.leb, String.ltb in *.
    destruct (String.compare s1 s2); [reflexivity | reflexivity | discriminate].
Qed.

Lemma string_leb_trans s1 s2 s3 :
  String.leb s1 s2 = true -> String.leb s2 s3 = true -> String.leb s1 s3 = true.
Proof.
  intros H1 H2. apply Is_true_true.
  apply Is_true_true in H1, H2.
  exact (transitivity (R := String.le) H1 H2).
Qed.

Lemma date_geb_total a b : date_geb a b = true \/ date_geb b a = true.
Proof. unfold date_geb. apply String.leb_total. Qed.

Lemma date_geb_trans a b c :
  date_geb a b = true -> date_geb b c = true -> date_geb a c = true.
Proof. unfold date_geb. intros H1 H2. exact (string_leb_trans _ _ _ H2 H1). Qed.

Lemma score_geb_total a b : score_geb a b = true \/ score_geb b a = true.
Proof. unfold score_geb. rewrite !Z.leb_le. lia. Qed.

Lemma score_geb_trans a b c :
  score_geb a b = true -> score_geb b c = true -> score_geb a c = true.
Proof. unfold score_geb. rewrite !Z.leb_le. lia. Qed.

Lemma lexsort_perm items : lexsort items ≡ₚ items.
Proof. unfold lexsort. rewrite !stable_sort_desc_perm. reflexivity. Qed.

(** The second pass keeps, among the items of one date, the order that the
    first pass gave them. *)
Lemma lexsort_filter_date d items :
  filter (fun it => date_utc it = d) (lexsort items)
  = filter (fun it => date_utc it = d) (stable_sort_desc score_geb items).
Proof.
  unfold lexsort. apply stable_sort_desc_filter.
  intros a b Ha Hb. unfold date_geb. rewrite Ha, Hb.
  apply string_leb_ltb. right. reflexivity.
Qed.

Lemma lexsort_stable k items :
  filter (has_rank_key k) (lexsort items) = filter (has_rank_key k) items.
Proof.
  destruct k as [d s].
  assert (Hsplit : forall l : list Item,
            filter (has_rank_key (d, s)) l
            = filter (fun it => impact_score_1to5 it = s)
                (filter (fun it => date_utc it = d) l)).
  { intros l. rewrite list_filter_filter. apply list_filter_iff.
    intros it. unfold has_rank_key, rank_key. split.
    - intros [= <- <-]. split; reflexivity.
    - intros [-> ->]. reflexivity. }
  rewrite !Hsplit, lexsort_filter_date.
  rewrite <- !Hsplit.
  assert (Hsplit' : forall l : list Item,
            filter (has_rank_key (d, s)) l
            = filter (fun it => date_utc it = d)
                (filter (fun it => impact_score_1to5 it = s) l)).
  { intros l. rewrite list_filter_filter. apply list_filter_iff.
    intros it. unfold has_rank_key, rank_key. split.
    - intros [= <- <-]. split; reflexivity.
    - intros [-> ->]. reflexivity. }
  rewrite !Hsplit'. f_equal.
  apply stable_sort_desc_filter.
  intros a b Ha Hb. unfold score_geb. rewrite Ha, Hb. apply Z.leb_refl.
Qed.

Lemma lexsort_sorted items : StronglySorted rank_ge (lexsort items).
Proof.
  assert (Hdate : StronglySorted (fun a b => date_geb a b = true) (lexsort items)).
  { apply stable_sort_desc_sorted; [apply date_geb_total | apply date_geb_trans]. }
  assert (Hscore : forall d,
            StronglySorted (fun a b => score_geb a b = true)
              (filter (fun it => date_utc it = d) (lexsort items))).
  { intros d. rewrite lexsort_filter_date. apply StronglySorted_filter.
    apply stable_sort_desc_sorted; [apply score_geb_total | apply score_geb_trans]. }
  revert Hdate Hscore. generalize (lexsort items) as out.
  induction out as [|a out IH]; intros Hdate Hscore; [constructor|].
  inversion Hdate as [|? ? Hout Ha]; subst.
  constructor.
  - apply IH; [exact Hout|]. intros d. specialize (Hscore d).
    rewrite filter_cons in Hscore.
    destruct (decide (date_utc a = d)); [|exact Hscore].
    inversion Hscore; assumption.
  - apply Forall_forall. intros b Hb.
    rewrite Forall_forall in Ha. specialize (Ha b Hb).
    unfold date_geb in Ha. apply string_leb_ltb in Ha.
    destruct Ha as [Hlt | Heq]; [left; exact Hlt|].
    right. split; [symmetry; exact Heq|].
    specialize (Hscore (date_utc a)).
    rewrite filter_cons_True in Hscore by reflexivity.
    inversion Hscore as [|? ? _ Hall]; subst.
    rewrite Forall_forall in Hall.
    assert (Hin : b ∈ filter (fun it => date_utc it = date_utc a) out).
    { apply list_elem_of_filter. split; [exact Heq | exact Hb]. }
    specialize (Hall b Hin). unfold score_geb in Hall.
    apply Z.leb_le. exact Hall.
Qed.

(** On a sequence that is not empty the ranker returns the items sorted by
    date and then by score, both descending, and keeps the original order
    among items that agree on both. *)
Lemma rank_nonempty dedup :
  dedup <> [] ->
  exists out,
    rank dedup = Ok out /\ out ≡ₚ dedup /\ StronglySorted rank_ge out /\
    forall k, filter (has_rank_key k) out = filter (has_rank_key k) dedup.
Proof.
  intros Hne. destruct dedup as [|it dedup]; [contradiction|].
  exists (lexsort (it :: dedup)). split; [reflexivity|].
  split; [apply lexsort_perm|]. split; [apply lexsort_sorted|].
  intros k. apply lexsort_stable.
Qed.

(** The example of the specification: dates 2024-01-02, 2024-01-02 and
    2024-01-01 with scores 3, 5 and 5. *)
Example rank_by_date_then_score :
  rank [sample_item "a" "2024-01-02" 3; sample_item "b" "2024-01-02" 5;
        sample_item "c" "2024-01-01" 5]
  = Ok [sample_item "b" "2024-01-02" 5; sample_item "a" "2024-01-02" 3;
        sample_item "c" "2024-01-01" 5].
Proof. vm_compute. reflexivity. Qed.

Example rank_keeps_order_of_ties :
  rank [sample_item "a" "2024-01-01" 4; sample_item "b" "2024-01-02" 4;
        sample_item "c" "2024-01-01" 4; sample_item "d" "2024-01-02" 4]
  = Ok [sample_item "b" "2024-01-02" 4; sample_item "d" "2024-01-02" 4;
        sample_item "a" "2024-01-01" 4; sample_item "c" "2024-01-01" 4].
Proof. vm_compute. reflexivity. Qed.

(** C3: on the empty sequence the ranker does not return the empty
    sequence: the data frame has no column [date_utc] to sort by, and
    [sort_values] raises [KeyError]. *)
Theorem rank_empty_raises :
  rank [] = Raise (KeyError "date_utc") /\
  dedup_and_rank [] = Raise (KeyError "date_utc").
Proof. split; reflexivity. Qed.

(** ** The matcher and what a pattern matches *)

Section MatcherFacts.

Variable ic : bool.

Lemma star_loop_spec (body : option ascii -> string -> Re.cont -> bool) r k :
  (forall p s k',
     body p s k' = true <->
     exists p' s', matches ic r p s p' s' /\ k' p' s' = true) ->
  forall n p s,
    (String.length s <= n)%nat ->
    Re.star_loop body k n p s = true <->
    exists p' s', matches ic (Star r) p s p' s' /\ k p' s' = true.
Proof.
  intros Hbody. induction n as [|n IH]; intros p s Hlen; simpl.
  - split.
    + intros H. exists p, s. split; [constructor | exact H].
    + intros (p' & s' & Hm & Hk). inversion Hm; subst; [exact Hk | lia].
  - split.
    + destruct (body p s _) eqn:E.
      * intros _. apply Hbody in E. destruct E as (p1 & s1 & Hm1 & Hk1).
        destruct (String.length s1 <? String.length s)%nat eqn:El;
          [|discriminate].
        apply Nat.ltb_lt in El.
        apply IH in Hk1; [|lia]. destruct Hk1 as (p' & s' & Hm & Hk).
        exists p', s'. split; [|exact Hk].
        eapply m_star_cons; eauto.
      * intros H. exists p, s. split; [constructor | exact H].
    + intros (p' & s' & Hm & Hk).
      inversion Hm as [| | | | | | |? ? ?|? ? ? p1 s1 ? ? Hm1 Hlt Hrest]; subst.
      * rewrite Hk. destruct (body p' s' _); reflexivity.
      * assert (E : body p s
                  (fun p0 s0 =>
                     if (String.length s0 <? String.length s)%nat
                     then Re.star_loop body k n p0 s0 else false) = true).
        { apply Hbody. exists p1, s1. split; [exact Hm1|].
          apply Nat.ltb_lt in Hlt as Hlt'. rewrite Hlt'.
          apply IH; [lia|]. exists p', s'. split; assumption. }
        rewrite E. reflexivity.
Qed.

(** The matcher finds a match exactly when the pattern has one. *)
Lemma run_spec r :
  forall p s k,
    Re.run ic r p s k = true <->
    exists p' s', matches ic r p s p' s' /\ k p' s' = true.
Proof.
  induction r as [|c|cs| |r1 IH1 r2 IH2|r1 IH1 r2 IH2|r IH]; intros p s k; simpl.
  - split.
    + intros H. exists p, s. split; [constructor | exact H].
    + intros (p' & s' & Hm & Hk). inversion Hm; subst. exact Hk.
  - destruct s as [|t s].
    { split; [discriminate|]. intros (p' & s' & Hm & _). inversion Hm. }
    destruct (Char.eqb_fold ic c t) eqn:E.
    + split.
      * intros H. exists (Some t), s. split; [constructor; exact E | exact H].
      * intros (p' & s' & Hm & Hk). inversion Hm; subst. exact Hk.
    + split; [discriminate|].
      intros (p' & s' & Hm & _). inversion Hm; subst. congruence.
  - destruct s as [|t s].
    { split; [discriminate|]. intros (p' & s' & Hm & _). inversion Hm. }
    destruct (Re.in_cset ic cs t) eqn:E.
    + split.
      * intros H. exists (Some t), s. split; [constructor; exact E | exact H].
      * intros (p' & s' & Hm & Hk). inversion Hm; subst. exact Hk.
    + split; [discriminate|].
      intros (p' & s' & Hm & _). inversion Hm; subst. congruence.
  - destruct (Re.at_boundary p s) eqn:E.
    + split.
      * intros H. exists p, s. split; [constructor; exact E | exact H].
      * intros (p' & s' & Hm & Hk). inversion Hm; subst. exact Hk.
    + split; [discriminate|].
      intros (p' & s' & Hm & _). inversion Hm; subst. congruence.
  - rewrite IH1. split.
    + intros (p1 & s1 & Hm1 & H2). apply IH2 in H2.
      destruct H2 as (p2 & s2 & Hm2 & Hk).
      exists p2, s2. split; [econstructor; eauto | exact Hk].
    + intros (p2 & s2 & Hm & Hk). inversion Hm; subst.
      eexists _, _. split; [eassumption|]. apply IH2. eauto.
  - destruct (Re.run ic r1 p s k) eqn:E1.
    + split; [|reflexivity]. intros _. apply IH1 in E1.
      destruct E1 as (p' & s' & Hm & Hk). exists p', s'.
      split; [apply m_alt_l; exact Hm | exact Hk].
    + rewrite IH2. split.
      * intros (p' & s' & Hm & Hk). exists p', s'.
        split; [apply m_alt_r; exact Hm | exact Hk].
      * intros (p' & s' & Hm & Hk). inversion Hm; subst.
        -- assert (Re.run ic r1 p s k = true) by (apply IH1; eauto). congruence.
        -- eauto.
  - apply (star_loop_spec (Re.run ic r) r k IH). lia.
Qed.

Lemma last_char_app p a b : last_char p (a +:+ b) = last_char (last_char p a) b.
Proof.
  revert p. induction a as [|c a IH]; intros p; [reflexivity|].
  rewrite string_app_cons. simpl. apply IH.
Qed.

Lemma scan_spec r s :
  forall p,
    Re.scan ic r p s = true <->
    exists pre rest p' s',
      s = pre +:+ rest /\ matches ic r (last_char p pre) rest p' s'.
Proof.
  induction s as [|c s IH]; intros p; simpl.
  - destruct (Re.run ic r p "" Re.accept) eqn:E.
    + split; [|reflexivity]. intros _. apply run_spec in E.
      destruct E as (p' & s' & Hm & _). exists "", "", p', s'.
      split; [reflexivity|exact Hm].
    + split; [discriminate|]. intros (pre & rest & p' & s' & Heq & Hm).
      destruct pre; [|discriminate]. rewrite string_app_nil_l in Heq.
      subst rest. simpl in Hm.
      assert (Re.run ic r p "" Re.accept = true) by (apply run_spec; eauto).
      congruence.
  - destruct (Re.run ic r p (String c s) Re.accept) eqn:E.
    + split; [|reflexivity]. intros _. apply run_spec in E.
      destruct E as (p' & s' & Hm & _).
      exists "", (String c s), p', s'. split; [reflexivity|exact Hm].
    + rewrite IH. split.
      * intros (pre & rest & p' & s' & Heq & Hm).
        exists (String c pre), rest, p', s'. subst s. split; [reflexivity|exact Hm].
      * intros (pre & rest & p' & s' & Heq & Hm).
        destruct pre as [|c' pre].
        -- rewrite string_app_nil_l in Heq. subst rest. simpl in Hm.
           assert (Re.run ic r p (String c s) Re.accept = true)
             by (apply run_spec; eauto).
           congruence.
        -- rewrite string_app_cons in Heq. injection Heq as <- ->.
           simpl in Hm. eauto 6.
Qed.

(** [re.search] succeeds exactly on the texts in which the pattern matches
    somewhere. *)
Lemma search_found r text : Re.search ic r text = true <-> found ic r text.
Proof. unfold Re.search, found. apply scan_spec. Qed.

Lemma matches_spaces ws p s :
  Str.forallb Char.is_space ws = true ->
  matches ic (Star (In Space)) p (ws +:+ s) (last_char p ws) s.
Proof.
  revert p. induction ws as [|c ws IH]; intros p H; simpl in *.
  - rewrite string_app_nil_l. constructor.
  - destruct (Char.is_space c) eqn:E; [|discriminate].
    rewrite string_app_cons.
    eapply m_star_cons; [constructor; exact E | simpl; lia | apply IH; exact H].
Qed.

End MatcherFacts.

(** ** Words and numerals in a text *)

Lemma is_word_lower c : Char.is_word (Char.lower c) = Char.is_word c.
Proof. destruct c as [[] [] [] [] [] [] [] []]; reflexivity. Qed.

Lemma eqb_fold_is_word c t :
  Char.eqb_fold true c t = true -> Char.is_word t = Char.is_word c.
Proof.
  unfold Char.eqb_fold. intros H. apply Ascii.eqb_eq in H.
  rewrite <- (is_word_lower t), <- (is_word_lower c), H. reflexivity.
Qed.

Lemma is_digit_is_word c : Char.is_digit c = true -> Char.is_word c = true.
Proof. intros H. unfold Char.is_word. rewrite H. reflexivity. Qed.

Lemma between_spec lo hi c :
  Char.between lo hi c = true <-> (lo <= Char.code c <= hi)%N.
Proof.
  unfold Char.between. rewrite andb_true_iff, !N.leb_le. reflexivity.
Qed.

Lemma code_inj c n : Char.code c = n -> c = ascii_of_N n.
Proof. intros <-. unfold Char.code. symmetry. apply ascii_N_embedding. Qed.

Lemma matches_str w :
  forall w' p s,
    eq_fold w w' = true ->
    matches true (Re.str w) p (w' +:+ s) (last_char p w') s.
Proof.
  induction w as [|c w IH]; intros w' p s H.
  - destruct w'; [|discriminate]. constructor.
  - destruct w' as [|t w']; [discriminate|]. simpl in H.
    apply andb_true_iff in H. destruct H as [Hc Hw].
    rewrite string_app_cons. destruct w as [|c1 w].
    + destruct w'; [|discriminate]. constructor. exact Hc.
    + change (Re.str (String c (String c1 w)))
        with (Cat (Lit c) (Re.str (String c1 w))).
      eapply m_cat; [constructor; exact Hc|].
      apply (IH w' (Some t) s Hw).
Qed.

Lemma eq_fold_word_after c w w' s :
  eq_fold (String c w) w' = true -> Char.is_word c = true ->
  Re.word_after (w' +:+ s) = true.
Proof.
  destruct w' as [|t w']; [discriminate|]. simpl. intros H Hc.
  apply andb_true_iff in H. destruct H as [H _].
  rewrite (eqb_fold_is_word c t H). exact Hc.
Qed.

Lemma eq_fold_word_before w :
  forall w' p,
    eq_fold w w' = true -> w <> "" -> Str.forallb Char.is_word w = true ->
    Re.word_before (last_char p w') = true.
Proof.
  induction w as [|c w IH]; intros w' p H Hne Hall; [contradiction|].
  destruct w' as [|t w']; [discriminate|]. simpl in H, Hall.
  apply andb_true_iff in H. destruct H as [Hc Hw].
  destruct (Char.is_word c) eqn:Ec; [|discriminate]. simpl.
  destruct w as [|c1 w].
  - destruct w'; [|discriminate]. simpl.
    rewrite (eqb_fold_is_word c t Hc). exact Ec.
  - apply (IH w' (Some t) Hw); [discriminate | exact Hall].
Qed.

Lemma digit_value_bound c :
  Char.is_digit c = true -> (digit_value c <= 9 /\ Char.code c = 48 + digit_value c)%N.
Proof. unfold Char.is_digit, digit_value. rewrite between_spec. lia. Qed.

Lemma digit_value_nonzero c :
  Char.is_digit c = true -> c <> "0"%char -> (1 <= digit_value c)%N.
Proof.
  intros Hd Hne. destruct (digit_value_bound c Hd) as [_ Hc].
  destruct (N.eq_dec (digit_value c) 0%N) as [E|E]; [|lia].
  exfalso. apply Hne. rewrite E in Hc. apply code_inj in Hc. exact Hc.
Qed.

Lemma numeral_value_ge acc d : (acc <= numeral_value acc d)%N.
Proof.
  revert acc. induction d as [|c d IH]; intros acc; simpl; [lia|].
  specialize (IH (10 * acc + digit_value c)%N). lia.
Qed.

Ltac split_digits H :=
  simpl in H;
  repeat match type of H with
         | (if Char.is_digit ?c then _ else _) = true =>
             let E := fresh "Hd" in
             destruct (Char.is_digit c) eqn:E; [|discriminate H]
         end.

(** A numeral between 300 and 999 has three digits, the first of them
    from 3 to 9. *)
Lemma numeral_300_999 d :
  is_numeral d -> (300 <= numeral_value 0 d <= 999)%N ->
  exists d1 d2 d3,
    d = String d1 (String d2 (String d3 "")) /\
    Char.between 51 57 d1 = true /\
    Char.is_digit d2 = true /\ Char.is_digit d3 = true.
Proof.
  intros [Hall Hlead] Hv.
  destruct d as [|d1 [|d2 [|d3 [|d4 d]]]]; simpl in Hlead; try contradiction;
    split_digits Hall.
  - simpl in Hv. destruct (digit_value_bound d1 Hd). lia.
  - simpl in Hv. destruct (digit_value_bound d1 Hd), (digit_value_bound d2 Hd0). lia.
  - simpl in Hv.
    destruct (digit_value_bound d1 Hd) as [? E1], (digit_value_bound d2 Hd0),
      (digit_value_bound d3 Hd1).
    exists d1, d2, d3. repeat split; auto.
    apply between_spec. lia.
  - simpl in Hv. pose proof (digit_value_nonzero d1 Hd Hlead).
    pose proof (numeral_value_ge
                  (10 * (10 * (10 * (10 * 0 + digit_value d1) + digit_value d2)
                         + digit_value d3) + digit_value d4) d).
    lia.
Qed.

(** The numeral of one thousand is [1000]. *)
Lemma numeral_1000 d :
  is_numeral d -> numeral_value 0 d = 1000%N -> d = "1000".
Proof.
  intros [Hall Hlead] Hv.
  destruct d as [|d1 [|d2 [|d3 [|d4 [|d5 d]]]]]; simpl in Hlead; try contradiction;
    split_digits Hall.
  - simpl in Hv. destruct (digit_value_bound d1 Hd). lia.
  - simpl in Hv. destruct (digit_value_bound d1 Hd), (digit_value_bound d2 Hd0). lia.
  - simpl in Hv.
    destruct (digit_value_bound d1 Hd), (digit_value_bound d2 Hd0),
      (digit_value_bound d3 Hd1). lia.
  - simpl in Hv.
    destruct (digit_value_bound d1 Hd) as [? E1], (digit_value_bound d2 Hd0) as [? E2],
      (digit_value_bound d3 Hd1) as [? E3], (digit_value_bound d4 Hd2) as [? E4].
    assert (digit_value d1 = 1 /\ digit_value d2 = 0 /\ digit_value d3 = 0
            /\ digit_value d4 = 0)%N as (V1 & V2 & V3 & V4) by lia.
    rewrite V1 in E1. rewrite V2 in E2. rewrite V3 in E3. rewrite V4 in E4.
    apply code_inj in E1, E2, E3, E4. subst. reflexivity.
  - simpl in Hv. pose proof (digit_value_nonzero d1 Hd Hlead).
    pose proof (numeral_value_ge
                  (10 * (10 * (10 * (10 * (10 * 0 + digit_value d1) + digit_value d2)
                               + digit_value d3) + digit_value d4) + digit_value d5) d).
    lia.
Qed.

(** ** The capacity patterns on quantities *)

Lemma RX_CAPACITY_shape :
  RX_CAPACITY
  = Cat WordB
      (Cat (Alt (word "GW")
              (Cat (In (Range "3" "9"))
                 (Cat (In Digit)
                    (Cat (In Digit) (Cat (Star (In Space)) (Re.str "MW"))))))
         WordB).
Proof. reflexivity. Qed.

Lemma RX_GIGAWATT_shape :
  RX_GIGAWATT
  = Cat WordB
      (Cat (Alt (Cat (Alt (Lit ">") Eps)
                   (Cat (Star (In Space))
                      (Cat (Re.str "1000")
                         (Cat (Star (In Space)) (Re.str "MW")))))
              (Re.str "gigawatt"))
         WordB).
Proof. reflexivity. Qed.

Lemma boundary_before_word p s :
  Re.word_before p = false -> Re.word_after s = true -> Re.at_boundary p s = true.
Proof. unfold Re.at_boundary. intros -> ->. reflexivity. Qed.

Lemma boundary_after_word p s :
  Re.word_before p = true -> Re.word_after s = false -> Re.at_boundary p s = true.
Proof. unfold Re.at_boundary. intros -> ->. reflexivity. Qed.

Lemma in_range_3_9 c :
  Char.between 51 57 c = true -> Re.in_cset true (Range "3" "9") c = true.
Proof.
  intros H.
  change (Re.in_cset true (Range "3" "9") c)
    with (Char.between 51 57 c
          || (true && (Char.between 51 57 (Char.lower c)
                       || Char.between 51 57 (Char.upper c)))).
  rewrite H. reflexivity.
Qed.

(** A quantity from 300 to 999 MW is found by the capacity pattern. *)
Lemma capacity_pattern_finds_300_999 text :
  mentions_MW (fun n => 300 <= n <= 999)%N text ->
  Re.search true RX_CAPACITY text = true.
Proof.
  intros (pre & digits & ws & unit & post & Heq & Hb & Hnum & Hval & Hws & Hu & Ha).
  destruct (numeral_300_999 digits Hnum Hval) as (d1 & d2 & d3 & -> & H1 & H2 & H3).
  apply search_found. eexists pre, _, _, post. split; [exact Heq|].
  rewrite RX_CAPACITY_shape, !string_app_cons, string_app_nil_l.
  assert (Hw1 : Char.is_word d1 = true).
  { apply is_digit_is_word. apply between_spec. apply between_spec in H1. lia. }
  eapply m_cat.
  { apply m_wordb. apply boundary_before_word; [exact Hb | exact Hw1]. }
  eapply m_cat.
  { apply m_alt_r.
    eapply m_cat; [apply m_in, in_range_3_9; exact H1|].
    eapply m_cat; [apply m_in; exact H2|].
    eapply m_cat; [apply m_in; exact H3|].
    eapply m_cat; [apply matches_spaces; exact Hws|].
    apply matches_str. exact Hu. }
  apply m_wordb. apply boundary_after_word; [|exact Ha].
  apply (eq_fold_word_before "MW"); [exact Hu | discriminate | reflexivity].
Qed.

(** The quantity 1000 MW is found by the gigawatt pattern ... *)
Lemma gigawatt_pattern_finds_1000 text :
  mentions_MW (fun n => n = 1000)%N text ->
  Re.search true RX_GIGAWATT text = true.
Proof.
  intros (pre & digits & ws & unit & post & Heq & Hb & Hnum & Hval & Hws & Hu & Ha).
  rewrite (numeral_1000 digits Hnum Hval) in Heq.
  apply search_found. eexists pre, _, _, post. split; [exact Heq|].
  rewrite RX_GIGAWATT_shape.
  eapply m_cat.
  { apply m_wordb. apply boundary_before_word; [exact Hb | reflexivity]. }
  eapply m_cat.
  { apply m_alt_l.
    eapply m_cat; [apply m_alt_r; constructor|].
    eapply m_cat; [apply m_star_nil|].
    eapply m_cat; [apply (matches_str "1000" "1000"); reflexivity|].
    eapply m_cat; [apply matches_spaces; exact Hws|].
    apply matches_str. exact Hu. }
  apply m_wordb. apply boundary_after_word; [|exact Ha].
  apply (eq_fold_word_before "MW"); [exact Hu | discriminate | reflexivity].
Qed.

(** ... and so is the word gigawatt. *)
Lemma gigawatt_pattern_finds_word text :
  mentions_word "gigawatt" text ->
  Re.search true RX_GIGAWATT text = true.
Proof.
  intros (pre & w' & post & Heq & Hb & Hw & Ha).
  apply search_found. eexists pre, _, _, post. split; [exact Heq|].
  rewrite RX_GIGAWATT_shape.
  eapply m_cat.
  { apply m_wordb. apply boundary_before_word; [exact Hb|].
    apply (eq_fold_word_after "g" "igawatt"); [exact Hw | reflexivity]. }
  eapply m_cat.
  { apply m_alt_r. apply matches_str. exact Hw. }
  apply m_wordb. apply boundary_after_word; [|exact Ha].
  apply (eq_fold_word_before "gigawatt"); [exact Hw | discriminate | reflexivity].
Qed.

Lemma mentions_1500MW :
  mentions_MW (fun n => 1000 <= n)%N "1500 MW policy".
Proof.
  exists "", "1500", " ", "MW", " policy".
  repeat split; try reflexivity; try discriminate.
Qed.

(** The tiers of the scorer on quantities: the score is 5 whenever the
    text contains the quantity 1000 MW itself or the word gigawatt, with or
    without policy language, and it is 4 when the text contains a quantity
    from 300 to 999 MW and the gigawatt pattern finds nothing. *)
Lemma score_impact_tiers text :
  (mentions_MW (fun n => n = 1000)%N text \/ mentions_word "gigawatt" text ->
   score_impact text = 5) /\
  (mentions_MW (fun n => 300 <= n <= 999)%N text ->
   Re.search true RX_GIGAWATT text = false ->
   score_impact text = 4).
Proof.
  split.
  - intros [H | H]; apply score_impact_gigawatt.
    + apply gigawatt_pattern_finds_1000, H.
    + apply gigawatt_pattern_finds_word, H.
  - intros H Hg. apply score_impact_capacity; [|exact Hg].
    apply capacity_pattern_finds_300_999, H.
Qed.

Example score_impact_tiers_on_samples :
  score_impact "1000 MW policy" = 5 /\
  score_impact "Germany awards 500 MW solar auction" = 4.
Proof.
  split.
  - apply (proj1 (score_impact_tiers "1000 MW policy")). left.
    exists "", "1000", " ", "MW", " policy".
    repeat split; try reflexivity; try discriminate.
  - apply (proj2 (score_impact_tiers "Germany awards 500 MW solar auction")).
    + exists "Germany awards ", "500", " ", "MW", " solar auction".
      repeat split; try reflexivity; try discriminate.
    + vm_compute. reflexivity.
Qed.

(** C1: the scorer does not give the top score to every quantity of at
    least 1000 MW.  The text "1500 MW policy" contains such a quantity
    together with policy language, and its score is 4, not 5; so the first
    tier of the claim does not hold of the code.  Without the policy
    language the larger quantity even scores below the smaller one:
    "1500 MW" scores 3 and "500 MW" scores 4. *)
Theorem quantity_above_1000MW_scores_4 :
  mentions_MW (fun n => 1000 <= n)%N "1500 MW policy" /\
  Re.search true RX_POLICY "1500 MW policy" = true /\
  score_impact "1500 MW policy" = 4 /\
  score_impact "1500 MW" = 3 /\
  score_impact "500 MW" = 4 /\
  ~ (forall text,
       mentions_MW (fun n => 1000 <= n)%N text ->
       Re.search true RX_POLICY text = true ->
       score_impact text = 5).
Proof.
  split; [exact mentions_1500MW|].
  split; [vm_compute; reflexivity|].
  split; [vm_compute; reflexivity|].
  split; [vm_compute; reflexivity|].
  split; [vm_compute; reflexivity|].
  intros H.
  assert (E : score_impact "1500 MW policy" = 5).
  { apply H; [exact mentions_1500MW | vm_compute; reflexivity]. }
  vm_compute in E. discriminate E.
Qed.

(** * Further properties of the code *)

(** ** The category classifier *)

Lemma first_match_lookup {A : Type} (rules : list (regex * A)) text v :
  first_match rules text = Some v ->
  exists k rule, rules !! k = Some rule /\ rule.2 = v /\
                 Re.search true rule.1 text = true.
Proof.
  intros H. destruct (first_match_spec rules text)
    as [[Hnone _] | (k & rule & Hk & Hm & _ & Hres)].
  - congruence.
  - exists k, rule. repeat split; [exact Hk | congruence | exact Hm].
Qed.

Lemma CATEGORY_GUESS_labels k rule :
  CATEGORY_GUESS !! k = Some rule ->
  rule.2 ∈ CATEGORIES /\ rule.2 <> "market".
Proof.
  intros H.
  destruct k as [|[|[|[|[|[|k]]]]]]; simpl in H; try discriminate;
    injection H as <-; simpl; (split; [|discriminate]);
    apply (bool_decide_unpack _); vm_compute; exact I.
Qed.

(** X1: [guess_category] answers with one of the seven labels, and with
    the default market exactly when no pattern of [CATEGORY_GUESS] is found
    in the text. *)
Theorem guess_category_labels text :
  guess_category text ∈ CATEGORIES /\
  (guess_category text = "market" <->
   forall k rule, CATEGORY_GUESS !! k = Some rule ->
                  Re.search true rule.1 text = false).
Proof.
  unfold guess_category.
  destruct (first_match_spec CATEGORY_GUESS text)
    as [[Hnone Hall] | (k & rule & Hk & Hm & _ & Hres)].
  - rewrite Hnone. split; [|tauto].
    apply (bool_decide_unpack _). vm_compute. exact I.
  - rewrite Hres. destruct (CATEGORY_GUESS_labels k rule Hk) as [Hin Hne].
    split; [exact Hin|]. split; [contradiction|].
    intros Hall. rewrite (Hall k rule Hk) in Hm. discriminate.
Qed.

(** ** Regions, countries and tags of an item *)

Lemma infer_region_country_pairs chk text :
  infer_region_country chk text ∈ REGION_PAIRS.
Proof.
  unfold infer_region_country.
  destruct (first_match REGION_MAP text) as [rc|] eqn:E.
  - apply first_match_lookup in E. destruct E as (k & rule & Hk & <- & _).
    destruct k as [|[|[|k]]]; simpl in Hk; try discriminate;
      injection Hk as <-; simpl;
      apply (bool_decide_unpack _); vm_compute; exact I.
  - destruct (Str.endswith ".de" _);
      apply (bool_decide_unpack _); vm_compute; exact I.
Qed.

(** X2: the region and the country of an item are one of the four pairs
    Germany/DE, India/IN, Europe/EU and Global with an empty country, as
    the geography classifier returned them: the substitution of EU for an
    empty country of Europe never takes place, and the country is empty
    exactly for Global. *)
Theorem region_country_pairs chk now src e it :
  normalize chk now src e = Ok it ->
  (region it, country it) ∈ REGION_PAIRS /\
  (region it, country it)
  = infer_region_country chk (entry_text e +:+ " " +:+ entry_link e) /\
  (country it = "" <-> region it = "Global").
Proof.
  intros Hit.
  destruct (normalize_fields chk now src e it Hit) as (_ & Hr & Hc & _).
  rewrite Hr, Hc.
  pose proof (infer_region_country_pairs chk
                (entry_text e +:+ " " +:+ entry_link e)) as Hin.
  destruct (infer_region_country chk _) as [r c]. simpl.
  repeat apply elem_of_cons in Hin as [Hin | Hin];
    try (injection Hin as -> ->; simpl;
         split; [apply (bool_decide_unpack _); vm_compute; exact I|];
         split; [reflexivity|]; split; intros; (reflexivity || discriminate)).
  inversion Hin.
Qed.

Lemma region_country_pairs_witness :
  normalize accept_bracketed sample_now "Bundesnetzagentur" auction_entry
  = Ok auction_item /\
  (region auction_item, country auction_item) ∈ REGION_PAIRS.
Proof.
  assert (H : normalize accept_bracketed sample_now "Bundesnetzagentur"
                auction_entry = Ok auction_item) by (vm_compute; reflexivity).
  split; [exact H|].
  exact (proj1 (region_country_pairs accept_bracketed sample_now
                  "Bundesnetzagentur" auction_entry auction_item H)).
Defined.

(** X3: the tags of a text are the baseline tag followed by a selection of
    PV+BESS, wind, PV and storage in this order, so no tag occurs twice and
    there are at most five. *)
Theorem derive_tags_shape text :
  (exists more, derive_tags text = "utility-scale" :: more) /\
  sublist (derive_tags text) ALL_TAGS /\
  NoDup (derive_tags text) /\
  (length (derive_tags text) <= 5)%nat.
Proof.
  assert (Hsub : sublist (derive_tags text) ALL_TAGS
                 /\ exists more, derive_tags text = "utility-scale" :: more).
  { unfold derive_tags, ALL_TAGS.
    destruct (Re.search true RX_TAG_HYBRID text),
      (Re.search true RX_TAG_WIND text), (Re.search true RX_TAG_PV text),
      (Re.search true RX_TAG_STORAGE text); simpl;
      (split; [repeat first [apply sublist_skip | apply sublist_cons
                             | apply sublist_nil]
              | eexists; reflexivity]). }
  destruct Hsub as [Hsub Hhead].
  split; [exact Hhead|]. split; [exact Hsub|]. split.
  - apply (sublist_NoDup _ ALL_TAGS); [|exact Hsub].
    apply (bool_decide_unpack _). vm_compute. exact I.
  - apply sublist_length in Hsub. exact Hsub.
Qed.

(** ** When [normalize] raises *)

Lemma normalize_raises_when chk now src e x :
  normalize chk now src e = Raise x <->
  (exists t, entry_timestamp e = Some t /\
             Time.valid_struct_time t = false /\ x = date_error t)
  \/ ((forall t, entry_timestamp e = Some t ->
                 Time.valid_struct_time t = true) /\
      link e = Null /\ x = TypeError).
Proof.
  assert (Hlink : forall d,
    (try link <- str_operand (get_default (link e) "") in
     let '(region, country) :=
       infer_region_country chk (entry_text e +:+ " " +:+ link) in
     Ok {| date_utc := d;
           headline := entry_title e;
           summary_80w := Str.take 600 (Str.sub_spaces (entry_summary e));
           region := region;
           country := if Str.truthy country then country
                      else if String.eqb region "Europe" then "EU" else "";
           category := guess_category (entry_text e);
           subtopic := "";
           capacity_MW := 0;
           storage_MWh := 0;
           project_stage := "NA";
           tariff_or_price_local := "";
           tariff_or_price_usd := "";
           entities := [];
           location := mk_location "" "" "";
           effective_date := d;
           impact_score_1to5 := score_impact (entry_text e);
           tags := derive_tags (entry_text e);
           source_name := src;
           source_url := link;
           reliability := if bool_decide (src ∈ OFFICIAL)
                          then "official" else "trade";
           notes := "" |}) = Raise x
    <-> link e = Null /\ x = TypeError).
  { intros d. destruct (link e) as [| |l]; simpl;
      try (destruct (infer_region_country chk _) as [r c]).
    - split; [discriminate | intros [? _]; discriminate].
    - split; [intros [= <-]; auto | intros [_ ->]; reflexivity].
    - split; [discriminate | intros [? _]; discriminate]. }
  unfold normalize, entry_date, entry_timestamp.
  fold (entry_title e) (entry_summary e). fold (entry_text e).
  destruct (or_opt (published_parsed e) (updated_parsed e)) as [t|]; simpl.
  - destruct (Time.valid_struct_time t) eqn:E.
    + rewrite (of_struct_time_valid t E). simpl. rewrite Hlink. split.
      * intros [Hl ->]. right. split; [|auto]. intros t' [= <-]. exact E.
      * intros [(t' & [= <-] & Hf & _) | (_ & Hl & ->)]; [congruence | auto].
    + rewrite (of_struct_time_invalid t E). simpl. split.
      * intros [= <-]. left. exists t. auto.
      * intros [(t' & [= <-] & _ & ->) | (Hall & _)]; [reflexivity|].
        specialize (Hall t eq_refl). congruence.
  - rewrite Hlink. split.
    + intros [Hl ->]. right. split; [|auto]. intros t' [=].
    + intros [(t' & [=] & _) | (_ & Hl & ->)]. auto.
Qed.

(** X4: [normalize] raises in two cases only.  The timestamp it uses - the
    published one if the entry has it, otherwise the updated one - is no
    calendar time: the exception is [OverflowError] when one of its first
    six components does not fit a C [int], and [ValueError] otherwise; a
    malformed updated timestamp behind a published one is never looked at.
    Or that timestamp is missing or a calendar time and the link is
    [None]: the exception is [TypeError].  In every other case it returns
    an item. *)
Theorem normalize_raises_iff chk now src e :
  (forall x,
     normalize chk now src e = Raise x <->
     (exists t, entry_timestamp e = Some t /\
                Time.valid_struct_time t = false /\
                x = if Time.fits_struct_time t then ValueError
                    else OverflowError)
     \/ ((forall t, entry_timestamp e = Some t ->
                    Time.valid_struct_time t = true) /\
         link e = Null /\ x = TypeError)) /\
  ((exists it, normalize chk now src e = Ok it) <->
   (forall t, entry_timestamp e = Some t ->
              Time.valid_struct_time t = true) /\
   link e <> Null).
Proof.
  split; [intros x; apply normalize_raises_when|].
  split.
  - intros [it Hit]. split.
    + intros t Ht. destruct (Time.valid_struct_time t) eqn:E; [reflexivity|].
      assert (H : normalize chk now src e = Raise (date_error t)).
      { apply normalize_raises_when. left. exists t. auto. }
      congruence.
    + intros Hl.
      assert (H : normalize chk now src e = Raise TypeError).
      { apply normalize_raises_when. right.
        destruct (entry_timestamp e) as [t|] eqn:Et.
        - split; [|auto]. intros t' [= <-].
          destruct (Time.valid_struct_time t) eqn:E; [reflexivity|].
          assert (H : normalize chk now src e = Raise (date_error t)).
          { apply normalize_raises_when. left. exists t. auto. }
          congruence.
        - split; [|auto]. intros t' [=]. }
      congruence.
  - intros [Hall Hl].
    destruct (normalize chk now src e) as [it|x] eqn:E; [eauto|].
    apply normalize_raises_when in E.
    destruct E as [(t & Ht & Hf & _) | (_ & Hn & _)]; [|congruence].
    rewrite (Hall t Ht) in Hf. discriminate.
Qed.

(** ** Headline and summary of an item *)

Lemma normalize_text_fields chk now src e it :
  normalize chk now src e = Ok it ->
  summary_80w it = Str.take 600 (Str.sub_spaces (entry_summary e)) /\
  entry_date now e = Ok (date_utc it) /\
  effective_date it = date_utc it.
Proof.
  unfold normalize. fold (entry_title e) (entry_summary e).
  destruct (entry_date now e) as [d|x]; simpl; [|discriminate].
  destruct (link e) as [| |l]; simpl; try discriminate;
    destruct (infer_region_country chk _) as [r c]; simpl;
    intros [= <-]; simpl; repeat split; reflexivity.
Qed.

Lemma normalize_link chk now src e it :
  normalize chk now src e = Ok it ->
  get_default (link e) "" = Some (source_url it).
Proof.
  unfold normalize.
  destruct (entry_date now e) as [d|x]; simpl; [|discriminate].
  destruct (link e) as [| |l]; simpl; try discriminate;
    destruct (infer_region_country chk _) as [r c]; simpl;
    intros [= <-]; reflexivity.
Qed.

Lemma lstrip_no_leading_space s : starts_with_space (Str.lstrip s) = false.
Proof.
  induction s as [|c s IH]; simpl; [reflexivity|].
  destruct (Char.is_space c) eqn:E; [exact IH | simpl; exact E].
Qed.

Lemma rstrip_no_trailing_space s : ends_with_space (Str.rstrip s) = false.
Proof.
  induction s as [|c s IH]; simpl; [reflexivity|].
  destruct (Str.rstrip s) as [|c' r] eqn:Er; simpl.
  - destruct (Char.is_space c) eqn:E; simpl; [reflexivity | exact E].
  - rewrite andb_false_r. exact IH.
Qed.

Lemma rstrip_keeps_start s :
  starts_with_space s = false -> starts_with_space (Str.rstrip s) = false.
Proof.
  destruct s as [|c s]; simpl; [reflexivity|]. intros E. rewrite E. simpl.
  exact E.
Qed.

Lemma lstrip_fixed s : starts_with_space s = false -> Str.lstrip s = s.
Proof. destruct s as [|c s]; simpl; [reflexivity|]. intros ->. reflexivity. Qed.

Lemma rstrip_fixed s : ends_with_space s = false -> Str.rstrip s = s.
Proof.
  induction s as [|c s IH]; [reflexivity|].
  destruct s as [|c' s'].
  - simpl. intros ->. reflexivity.
  - intros H. change (ends_with_space (String c (String c' s')))
      with (ends_with_space (String c' s')) in H.
    change (Str.rstrip (String c (String c' s')))
      with (let r := Str.rstrip (String c' s') in
            if Char.is_space c && negb (Str.truthy r) then EmptyString
            else String c r).
    rewrite (IH H). simpl. rewrite andb_false_r. reflexivity.
Qed.

Lemma strip_shape s :
  starts_with_space (Str.strip s) = false /\
  ends_with_space (Str.strip s) = false /\
  Str.strip (Str.strip s) = Str.strip s.
Proof.
  assert (H1 : starts_with_space (Str.strip s) = false).
  { apply rstrip_keeps_start, lstrip_no_leading_space. }
  assert (H2 : ends_with_space (Str.strip s) = false).
  { apply rstrip_no_trailing_space. }
  split; [exact H1|]. split; [exact H2|].
  unfold Str.strip at 1. rewrite (lstrip_fixed _ H1). apply rstrip_fixed, H2.
Qed.

(** X5: the headline of an item neither begins nor ends with whitespace,
    so that trimming it again changes nothing; the deduplication key is
    built from the trimmed title and from the link as it was read, with
    the empty string for a missing link. *)
Theorem headline_is_trimmed chk now src e it :
  normalize chk now src e = Ok it ->
  starts_with_space (headline it) = false /\
  ends_with_space (headline it) = false /\
  Str.strip (headline it) = headline it /\
  dedup_key it = (Str.strip (or_str (title e) ""), entry_link e) /\
  get_default (link e) "" = Some (entry_link e).
Proof.
  intros Hit.
  destruct (normalize_fields chk now src e it Hit)
    as (Hh & _ & _ & _ & _ & _ & _ & Hu & _).
  pose proof (normalize_link chk now src e it Hit) as Hl.
  rewrite Hu in Hl.
  unfold dedup_key. rewrite Hh, Hu. unfold entry_title.
  destruct (strip_shape (or_str (title e) "")) as (H1 & H2 & H3).
  repeat split; assumption.
Qed.

Lemma headline_is_trimmed_witness :
  normalize accept_bracketed sample_now "Bundesnetzagentur" auction_entry
  = Ok auction_item /\
  Str.strip (headline auction_item) = headline auction_item.
Proof.
  assert (H : normalize accept_bracketed sample_now "Bundesnetzagentur"
                auction_entry = Ok auction_item) by (vm_compute; reflexivity).
  split; [exact H|].
  exact (proj1 (proj2 (proj2 (headline_is_trimmed accept_bracketed sample_now
                  "Bundesnetzagentur" auction_entry auction_item H)))).
Defined.

Lemma take_length n s : (String.length (Str.take n s) <= n)%nat.
Proof.
  unfold Str.take. revert s. induction n as [|n IH]; intros s.
  - destruct s; simpl; lia.
  - destruct s as [|c s]; simpl; [lia|]. specialize (IH s). lia.
Qed.

Lemma take_single_spaced n s b :
  single_spaced b s = true -> single_spaced b (Str.take n s) = true.
Proof.
  unfold Str.take. revert s b. induction n as [|n IH]; intros s b H.
  - destruct s; reflexivity.
  - destruct s as [|c s]; [reflexivity|]. simpl in *.
    destruct (Char.is_space c).
    + apply andb_true_iff in H. destruct H as [H1 H2].
      rewrite H1. simpl. apply IH, H2.
    + apply IH, H.
Qed.

Lemma take_keeps_start n s :
  starts_with_space s = false -> starts_with_space (Str.take n s) = false.
Proof.
  unfold Str.take. destruct n as [|n], s as [|c s]; simpl; auto.
Qed.

Lemma collapse_single_spaced s :
  forall b, single_spaced b (Str.collapse b s) = true.
Proof.
  induction s as [|c s IH]; intros b; simpl; [reflexivity|].
  destruct (Char.is_space c) eqn:E.
  - destruct b; [apply IH|]. simpl. apply IH.
  - simpl. rewrite E. apply IH.
Qed.

Lemma collapse_keeps_start s :
  starts_with_space s = false ->
  starts_with_space (Str.collapse false s) = false.
Proof.
  destruct s as [|c s]; simpl; [reflexivity|]. intros E. rewrite E. simpl.
  exact E.
Qed.

(** X6: the summary of an item has at most 600 characters, does not begin
    with whitespace, and its only whitespace characters are single spaces:
    every run of whitespace of the entry's summary has become one space. *)
Theorem summary_is_collapsed chk now src e it :
  normalize chk now src e = Ok it ->
  (String.length (summary_80w it) <= 600)%nat /\
  starts_with_space (summary_80w it) = false /\
  single_spaced false (summary_80w it) = true.
Proof.
  intros Hit.
  destruct (normalize_text_fields chk now src e it Hit) as (Hs & _).
  rewrite Hs. split; [apply take_length|]. split.
  - apply take_keeps_start, collapse_keeps_start.
    unfold entry_summary. apply strip_shape.
  - apply take_single_spaced, collapse_single_spaced.
Qed.

Lemma summary_is_collapsed_witness :
  normalize accept_bracketed sample_now "Bundesnetzagentur" auction_entry
  = Ok auction_item /\
  (String.length (summary_80w auction_item) <= 600)%nat.
Proof.
  assert (H : normalize accept_bracketed sample_now "Bundesnetzagentur"
                auction_entry = Ok auction_item) by (vm_compute; reflexivity).
  split; [exact H|].
  exact (proj1 (summary_is_collapsed accept_bracketed sample_now
                  "Bundesnetzagentur" auction_entry auction_item H)).
Defined.

(** ** More on the deduplicator *)

Lemma dedup_from_distinct seen items :
  NoDup (dedup_key <$> items) ->
  (forall it, it ∈ items -> dedup_key it ∉ seen) ->
  dedup_from seen items = items.
Proof.
  revert seen. induction items as [|x items IH]; intros seen Hnd Hfresh;
    [reflexivity|].
  rewrite fmap_cons in Hnd. apply NoDup_cons in Hnd. destruct Hnd as [Hx Hnd].
  simpl. rewrite bool_decide_eq_false_2 by (apply Hfresh; left).
  f_equal. apply IH; [exact Hnd|].
  intros it Hin Hs. apply elem_of_union in Hs as [Hs | Hs].
  - apply elem_of_singleton in Hs. apply Hx. rewrite <- Hs.
    apply list_elem_of_fmap_2. exact Hin.
  - apply (Hfresh it); [right; exact Hin | exact Hs].
Qed.

Lemma filter_nonempty_elem {A : Type} (P : A -> Prop)
    `{!forall a, Decision (P a)} (l : list A) x :
  x ∈ l -> P x -> exists y, y ∈ take 1 (filter P l) /\ P y.
Proof.
  intros Hin HP.
  assert (Hf : x ∈ filter P l) by (apply list_elem_of_filter; auto).
  destruct (filter P l) as [|y f] eqn:E; [inversion Hf|].
  exists y. split; [left|].
  assert (Hy : y ∈ filter P l) by (rewrite E; left).
  apply list_elem_of_filter in Hy. tauto.
Qed.

(** X7: deduplication loses no key - every item of the input has an item
    with its headline and link in the output; it returns a list of distinct
    keys unchanged; and deduplicating twice is deduplicating once. *)
Theorem deduplicate_is_a_closure items :
  (forall it, it ∈ items ->
     exists it', it' ∈ deduplicate items /\ dedup_key it' = dedup_key it) /\
  (NoDup (dedup_key <$> items) -> deduplicate items = items) /\
  deduplicate (deduplicate items) = deduplicate items /\
  (length (deduplicate items) <= length items)%nat.
Proof.
  assert (Hid : forall l, NoDup (dedup_key <$> l) -> deduplicate l = l).
  { intros l Hnd. rewrite deduplicate_dedup_from.
    apply dedup_from_distinct; [exact Hnd|]. intros it _. apply not_elem_of_empty. }
  split; [|split; [apply Hid|split]].
  - intros it Hin.
    destruct (filter_nonempty_elem (has_key (dedup_key it)) items it Hin eq_refl)
      as (y & Hy & Hk).
    exists y. split; [|exact Hk].
    rewrite deduplicate_dedup_from.
    assert (Hf : y ∈ filter (has_key (dedup_key it)) (dedup_from ∅ items)).
    { rewrite dedup_from_filter.
      rewrite bool_decide_eq_false_2 by apply not_elem_of_empty. exact Hy. }
    apply list_elem_of_filter in Hf. tauto.
  - apply Hid. rewrite deduplicate_dedup_from. apply dedup_from_NoDup.
  - apply sublist_length. rewrite deduplicate_dedup_from. apply dedup_from_sublist.
Qed.

Lemma deduplicate_is_a_closure_witness :
  auction_item ∈ [auction_item; auction_item] /\
  NoDup (dedup_key <$> [auction_item]) /\
  (exists it', it' ∈ deduplicate [auction_item; auction_item]
               /\ dedup_key it' = dedup_key auction_item) /\
  deduplicate [auction_item] = [auction_item].
Proof.
  assert (H1 : auction_item ∈ [auction_item; auction_item]) by left.
  assert (H2 : NoDup (dedup_key <$> [auction_item])).
  { apply (bool_decide_unpack _). vm_compute. exact I. }
  split; [exact H1|]. split; [exact H2|]. split.
  - exact (proj1 (deduplicate_is_a_closure [auction_item; auction_item])
             auction_item H1).
  - exact (proj1 (proj2 (deduplicate_is_a_closure [auction_item])) H2).
Defined.

(** ** More on the ranker *)

Lemma string_ltb_irrefl s : String.ltb s s = false.
Proof.
  unfold String.ltb. pose proof (String.compare_antisym s s) as H.
  destruct (String.compare s s); try reflexivity. discriminate H.
Qed.

Lemma string_ltb_asym s1 s2 :
  String.ltb s1 s2 = true -> String.ltb s2 s1 = false.
Proof.
  unfold String.ltb. rewrite (String.compare_antisym s1 s2).
  destruct (String.compare s2 s1); simpl; congruence.
Qed.

Lemma rank_ge_antisym a b :
  rank_ge a b -> rank_ge b a -> rank_key a = rank_key b.
Proof.
  unfold rank_ge, rank_key.
  intros [H1 | [E1 L1]] [H2 | [E2 L2]].
  - rewrite (string_ltb_asym _ _ H1) in H2. discriminate.
  - rewrite E2, string_ltb_irrefl in H1. discriminate.
  - rewrite E1, string_ltb_irrefl in H2. discriminate.
  - f_equal; [exact E1 | lia].
Qed.

(** A list that is sorted for the ranking order is determined by the items
    it holds for each date and score, taken in their order. *)
Lemma sorted_stable_unique (l1 l2 : list Item) :
  StronglySorted rank_ge l1 -> StronglySorted rank_ge l2 ->
  (forall k, filter (has_rank_key k) l1 = filter (has_rank_key k) l2) ->
  l1 = l2.
Proof.
  revert l2. induction l1 as [|a t1 IH]; intros l2 H1 H2 Hf.
  - destruct l2 as [|b t2]; [reflexivity|].
    specialize (Hf (rank_key b)).
    rewrite (filter_cons_True (has_rank_key (rank_key b))) in Hf by reflexivity.
    discriminate.
  - destruct l2 as [|b t2].
    { specialize (Hf (rank_key a)).
      rewrite (filter_cons_True (has_rank_key (rank_key a))) in Hf by reflexivity.
      discriminate. }
    inversion H1 as [|? ? Ht1 Ha]; subst.
    inversion H2 as [|? ? Ht2 Hb]; subst.
    rewrite Forall_forall in Ha, Hb.
    assert (Hkey : rank_key a = rank_key b).
    { assert (Hba : b ∈ a :: t1).
      { pose proof (Hf (rank_key b)) as E.
        rewrite (filter_cons_True (has_rank_key (rank_key b)) b) in E by reflexivity.
        assert (Hin : b ∈ filter (has_rank_key (rank_key b)) (a :: t1))
          by (rewrite E; left).
        apply list_elem_of_filter in Hin. tauto. }
      assert (Hab : a ∈ b :: t2).
      { pose proof (Hf (rank_key a)) as E.
        rewrite (filter_cons_True (has_rank_key (rank_key a)) a) in E by reflexivity.
        assert (Hin : a ∈ filter (has_rank_key (rank_key a)) (b :: t2))
          by (rewrite <- E; left).
        apply list_elem_of_filter in Hin. tauto. }
      apply elem_of_cons in Hba as [-> | Hba]; [reflexivity|].
      apply elem_of_cons in Hab as [-> | Hab]; [reflexivity|].
      apply rank_ge_antisym; [apply Ha, Hba | apply Hb, Hab]. }
    assert (Heq : a = b).
    { pose proof (Hf (rank_key a)) as E.
      rewrite (filter_cons_True (has_rank_key (rank_key a)) a) in E by reflexivity.
      rewrite (filter_cons_True (has_rank_key (rank_key a)) b) in E
        by (symmetry; exact Hkey).
      congruence. }
    subst b. f_equal. apply IH; [exact Ht1 | exact Ht2|].
    intros k. specialize (Hf k). rewrite !(filter_cons (has_rank_key k)) in Hf.
    destruct (decide (has_rank_key k a)); congruence.
Qed.

(** X8: on a sequence that is not empty the ranker returns a permutation
    of it that is sorted by date and then by score, both descending, and
    keeps the original order among items equal in both; it is the only
    list with these properties, and ranking it again returns it
    unchanged. *)
Theorem rank_sorts_stably dedup :
  dedup <> [] ->
  exists out,
    rank dedup = Ok out /\ out ≡ₚ dedup /\ StronglySorted rank_ge out /\
    (forall k, filter (has_rank_key k) out = filter (has_rank_key k) dedup) /\
    (forall l, StronglySorted rank_ge l ->
               (forall k, filter (has_rank_key k) l
                          = filter (has_rank_key k) dedup) ->
               l = out) /\
    rank out = Ok out.
Proof.
  intros Hne. destruct dedup as [|it dedup]; [contradiction|].
  set (l0 := it :: dedup) in *.
  exists (lexsort l0). split; [reflexivity|].
  split; [apply lexsort_perm|]. split; [apply lexsort_sorted|].
  split; [intros k; apply lexsort_stable|]. split.
  - intros l Hs Hf. apply sorted_stable_unique;
      [exact Hs | apply lexsort_sorted|].
    intros k. rewrite Hf, lexsort_stable. reflexivity.
  - destruct (lexsort l0) as [|y out] eqn:E.
    + pose proof (lexsort_perm l0) as Hp. rewrite E in Hp.
      apply Permutation_nil_l in Hp. discriminate.
    + unfold rank. f_equal. rewrite <- E.
      apply sorted_stable_unique;
        [apply lexsort_sorted | rewrite E; rewrite <- E; apply lexsort_sorted|].
      intros k. apply lexsort_stable.
Qed.

Lemma rank_sorts_stably_witness :
  [sample_item "a" "2024-01-02" 3; sample_item "b" "2024-01-02" 5] <> [] /\
  exists out,
    rank [sample_item "a" "2024-01-02" 3; sample_item "b" "2024-01-02" 5]
    = Ok out /\
    StronglySorted rank_ge out.
Proof.
  assert (H : [sample_item "a" "2024-01-02" 3; sample_item "b" "2024-01-02" 5]
              <> []) by discriminate.
  split; [exact H|].
  destruct (rank_sorts_stably _ H) as (out & Hr & _ & Hs & _).
  exists out. split; [exact Hr | exact Hs].
Defined.

(** ** The loop over the feeds *)

Lemma normalize_entries_length chk now_at name es :
  forall i,
    (length (normalize_entries chk now_at name i es).1 <= length es)%nat.
Proof.
  induction es as [|e es IH]; intros i; simpl; [lia|].
  destruct (normalize chk (now_at i) name e); simpl; [|lia].
  specialize (IH (S i)). lia.
Qed.

Lemma normalize_entries_origin chk now_at name es it :
  forall i,
    it ∈ (normalize_entries chk now_at name i es).1 ->
    exists j e, e ∈ es /\ normalize chk (now_at j) name e = Ok it.
Proof.
  induction es as [|e es IH]; intros i; simpl.
  - intros H. inversion H.
  - destruct (normalize chk (now_at i) name e) as [it0|x] eqn:E; simpl.
    + intros [-> | Hin]%elem_of_cons.
      * exists i, e. split; [left | exact E].
      * destruct (IH (S i) Hin) as (j & e' & He' & Hn).
        exists j, e'. split; [right; exact He' | exact Hn].
    + intros H. inversion H.
Qed.

Lemma run_feed_length chk now_at fetch feed :
  (length (run_feed chk now_at fetch feed).1 <= 50)%nat /\
  (length (run_feed chk now_at fetch feed).2 <= 1)%nat.
Proof.
  unfold run_feed. destruct (fetch feed.2) as [entries|x]; simpl; [|lia].
  split.
  - pose proof (normalize_entries_length chk now_at feed.1 (take 50 entries) 0).
    pose proof (length_take_le entries 50). rewrite length_take in *. lia.
  - destruct (normalize_entries _ _ _ _ _).2; simpl; lia.
Qed.

Lemma run_feed_origin chk now_at fetch feed it :
  it ∈ (run_feed chk now_at fetch feed).1 ->
  exists j e, normalize chk (now_at j) feed.1 e = Ok it.
Proof.
  unfold run_feed. destruct (fetch feed.2) as [entries|x]; simpl.
  - intros H. apply normalize_entries_origin in H.
    destruct H as (j & e & _ & Hn). eauto.
  - intros H. inversion H.
Qed.

Lemma collect_from_length chk clock fetch feeds :
  forall fi,
    (length (collect_from chk clock fetch fi feeds).1 <= 50 * length feeds)%nat /\
    (length (collect_from chk clock fetch fi feeds).2 <= length feeds)%nat.
Proof.
  induction feeds as [|feed feeds IH]; intros fi; simpl; [lia|].
  rewrite !length_app.
  destruct (run_feed_length chk (clock fi) fetch feed), (IH (S fi)). lia.
Qed.

Lemma collect_from_origin chk clock fetch feeds it :
  forall fi,
    it ∈ (collect_from chk clock fetch fi feeds).1 ->
    exists feed now e,
      feed ∈ feeds /\ normalize chk now feed.1 e = Ok it.
Proof.
  induction feeds as [|feed feeds IH]; intros fi; simpl.
  - intros H. inversion H.
  - intros [H | H]%elem_of_app.
    + apply run_feed_origin in H. destruct H as (j & e & Hn).
      exists feed, (clock fi j), e. split; [left | exact Hn].
    + destruct (IH (S fi) H) as (feed' & now & e & Hin & Hn).
      exists feed', now, e. split; [right; exact Hin | exact Hn].
Qed.

Lemma official_feeds name :
  name ∈ (FEEDS.*1) ->
  (if bool_decide (name ∈ OFFICIAL) then "official" else "trade") = "official"
  <-> name ∈ ["IRENA"; "Bundesnetzagentur"; "EU Energy"].
Proof.
  intros H. simpl in H.
  repeat (apply elem_of_cons in H as [-> | H]);
    try (apply (bool_decide_unpack _); vm_compute; exact I).
  inversion H.
Qed.

(** X9: a run collects at most 50 items from each feed, hence at most 300,
    and prints at most one line per feed; every item carries the name of a
    feed of the registry, and it is official exactly when that feed is
    IRENA, Bundesnetzagentur or EU Energy - the name IEA of the official
    tuple belongs to no feed. *)
Theorem collected_items_come_from_feeds chk clock fetch :
  (length (collect chk clock fetch).1 <= 300)%nat /\
  (length (collect chk clock fetch).2 <= 6)%nat /\
  forall it,
    it ∈ (collect chk clock fetch).1 ->
    source_name it ∈ (FEEDS.*1) /\
    (reliability it = "official" <->
     source_name it ∈ ["IRENA"; "Bundesnetzagentur"; "EU Energy"]).
Proof.
  unfold collect.
  destruct (collect_from_length chk clock fetch FEEDS 0) as [H1 H2].
  split; [exact H1|]. split; [exact H2|].
  intros it Hin.
  destruct (collect_from_origin chk clock fetch FEEDS it 0 Hin)
    as (feed & now & e & Hfeed & Hn).
  destruct (normalize_fields chk now feed.1 e it Hn)
    as (_ & _ & _ & _ & _ & _ & Hsrc & _ & Hrel).
  rewrite Hsrc, Hrel.
  assert (Hname : feed.1 ∈ (FEEDS.*1)) by (apply list_elem_of_fmap_2; exact Hfeed).
  split; [exact Hname | apply official_feeds, Hname].
Qed.

Lemma collected_items_come_from_feeds_witness :
  exists it,
    it ∈ (collect accept_bracketed sample_clock sample_fetch).1 /\
    source_name it ∈ (FEEDS.*1).
Proof.
  assert (Hin : exists it,
             it ∈ (collect accept_bracketed sample_clock sample_fetch).1).
  { vm_compute. eexists. left. }
  destruct Hin as [it Hin]. exists it. split; [exact Hin|].
  exact (proj1 (proj2 (proj2 (collected_items_come_from_feeds
                  accept_bracketed sample_clock sample_fetch)) it Hin)).
Defined.

Lemma run_feed_quiet chk now_at fetch feed :
  (run_feed chk now_at fetch feed).1 = (run_feed chk now_at (quiet fetch) feed).1.
Proof.
  unfold run_feed, quiet. destruct (fetch feed.2); reflexivity.
Qed.

Lemma collect_from_quiet chk clock fetch feeds :
  forall fi,
    (collect_from chk clock fetch fi feeds).1
    = (collect_from chk clock (quiet fetch) fi feeds).1.
Proof.
  induction feeds as [|feed feeds IH]; intros fi; simpl; [reflexivity|].
  rewrite (run_feed_quiet chk (clock fi) fetch feed), (IH (S fi)). reflexivity.
Qed.

(** X10: a feed whose fetch raises contributes no item and one printed
    line, and the items of the run are those of the run in which every
    failing feed is an empty feed: the failure of one source changes
    nothing for the others. *)
Theorem failing_feed_is_an_empty_feed chk clock fetch :
  (collect chk clock fetch).1 = (collect chk clock (quiet fetch)).1 /\
  forall now_at name url x,
    fetch url = Raise x ->
    run_feed chk now_at fetch (name, url) = ([], [(name, url, x)]).
Proof.
  split; [apply collect_from_quiet|].
  intros now_at name url x H. unfold run_feed. simpl. rewrite H. reflexivity.
Qed.

Lemma failing_feed_is_an_empty_feed_witness :
  no_fetch "https://www.irena.org/rss" = Raise ValueError /\
  run_feed accept_bracketed (sample_clock 0) no_fetch
    ("IRENA", "https://www.irena.org/rss")
  = ([], [("IRENA", "https://www.irena.org/rss", ValueError)]).
Proof.
  split; [reflexivity|].
  apply (proj2 (failing_feed_is_an_empty_feed accept_bracketed sample_clock
                  no_fetch)).
  reflexivity.
Defined.

Lemma normalize_entries_app chk now_at name l1 l2 :
  forall i,
    Forall wf_entry l1 ->
    normalize_entries chk now_at name i (l1 ++ l2)
    = ((normalize_entries chk now_at name i l1).1
       ++ (normalize_entries chk now_at name (i + length l1) l2).1,
       (normalize_entries chk now_at name (i + length l1) l2).2) /\
    length (normalize_entries chk now_at name i l1).1 = length l1.
Proof.
  induction l1 as [|e l1 IH]; intros i Hwf; simpl.
  - rewrite Nat.add_0_r. split; [|reflexivity].
    destruct (normalize_entries chk now_at name i l2); reflexivity.
  - inversion Hwf as [|? ? He Hl1]; subst.
    destruct (normalize_returns chk (now_at i) name e He) as [it Hit].
    rewrite Hit. simpl. destruct (IH (S i) Hl1) as [E L].
    rewrite E. simpl. replace (i + S (length l1))%nat with (S i + length l1)%nat by lia.
    split; [reflexivity | rewrite L; reflexivity].
Qed.

(** X11: when [normalize] raises on an entry of a feed, the items of the
    entries before it are kept, the entries after it are never normalized
    and the feed ends with the exception.  So an entry whose timestamp is
    no calendar time ends its feed with a [ValueError], or with an
    [OverflowError] when a component of the timestamp does not fit a C
    [int]; and an entry whose link is [None] ends it with a
    [TypeError]. *)
Theorem malformed_entry_cuts_the_feed chk now_at name i good bad rest :
  Forall wf_entry good ->
  let kept := (normalize_entries chk now_at name i good).1 in
  let out := normalize_entries chk now_at name i (good ++ bad :: rest) in
  (forall x,
     normalize chk (now_at (i + length good)%nat) name bad = Raise x ->
     out = (kept, Some x)) /\
  (forall t,
     entry_timestamp bad = Some t -> Time.valid_struct_time t = false ->
     out = (kept, Some (if Time.fits_struct_time t then ValueError
                        else OverflowError))) /\
  ((forall t, entry_timestamp bad = Some t ->
              Time.valid_struct_time t = true) ->
   link bad = Null ->
   out = (kept, Some TypeError)) /\
  length kept = length good.
Proof.
  intros Hgood kept out.
  destruct (normalize_entries_app chk now_at name good (bad :: rest) i Hgood)
    as [E L].
  assert (Hx : forall x,
             normalize chk (now_at (i + length good)%nat) name bad = Raise x ->
             out = (kept, Some x)).
  { intros x Hr. unfold out, kept. rewrite E. simpl. rewrite Hr. simpl.
    rewrite app_nil_r. reflexivity. }
  split; [exact Hx|]. split; [|split; [|exact L]].
  - intros t Ht Hbad. apply Hx, normalize_raises_when.
    left. exists t. auto.
  - intros Hall Hl. apply Hx, normalize_raises_when. right. auto.
Qed.

Lemma malformed_entry_cuts_the_feed_witness :
  let kept := (normalize_entries accept_bracketed (sample_clock 0) "PV-Tech" 0
                 [auction_entry]).1 in
  Forall wf_entry [auction_entry] /\
  normalize_entries accept_bracketed (sample_clock 0) "PV-Tech" 0
    ([auction_entry] ++ bad_date_entry :: [solar_news_entry])
  = (kept, Some ValueError) /\
  normalize_entries accept_bracketed (sample_clock 0) "PV-Tech" 0
    ([auction_entry] ++ huge_year_entry :: [solar_news_entry])
  = (kept, Some OverflowError) /\
  normalize_entries accept_bracketed (sample_clock 0) "PV-Tech" 0
    ([auction_entry] ++ null_link_entry :: [solar_news_entry])
  = (kept, Some TypeError).
Proof.
  intros kept.
  assert (H : Forall wf_entry [auction_entry]).
  { constructor; [sample_wf | constructor]. }
  split; [exact H|]. split; [|split].
  - exact (proj1 (proj2 (malformed_entry_cuts_the_feed accept_bracketed
                           (sample_clock 0) "PV-Tech" 0 [auction_entry]
                           bad_date_entry [solar_news_entry] H))
             (mk_struct_time 2024 2 30 0 0 0 0 0 0) eq_refl eq_refl).
  - exact (proj1 (proj2 (malformed_entry_cuts_the_feed accept_bracketed
                           (sample_clock 0) "PV-Tech" 0 [auction_entry]
                           huge_year_entry [solar_news_entry] H))
             (mk_struct_time 2147483648 1 1 0 0 0 0 0 0) eq_refl eq_refl).
  - refine (proj1 (proj2 (proj2 (malformed_entry_cuts_the_feed
                                   accept_bracketed (sample_clock 0) "PV-Tech"
                                   0 [auction_entry] null_link_entry
                                   [solar_news_entry] H))) _ eq_refl).
    intros t Ht. discriminate Ht.
Defined.

(** ** The whole run *)

Lemma deduplicate_nil_iff items : deduplicate items = [] <-> items = [].
Proof.
  rewrite deduplicate_dedup_from. split; [|intros ->; reflexivity].
  destruct items as [|it items]; [reflexivity|]. simpl.
  rewrite bool_decide_eq_false_2 by apply not_elem_of_empty. discriminate.
Qed.

Lemma rank_raises_iff dedup x : rank dedup = Raise x <-> dedup = [] /\ x = KeyError "date_utc".
Proof.
  destruct dedup as [|it dedup]; simpl.
  - split; [intros [= <-]; auto | intros [_ ->]; reflexivity].
  - split; [discriminate | intros [H _]; discriminate].
Qed.

Lemma collect_from_nothing chk clock fetch feeds :
  forall fi,
    (forall feed, feed ∈ feeds -> quiet fetch feed.2 = Ok []) ->
    (collect_from chk clock fetch fi feeds).1 = [].
Proof.
  induction feeds as [|feed feeds IH]; intros fi Hall; simpl; [reflexivity|].
  rewrite (IH (S fi)) by (intros f Hf; apply Hall; right; exact Hf).
  rewrite app_nil_r. specialize (Hall feed (list_elem_of_here _ _)).
  unfold run_feed. unfold quiet in Hall.
  destruct (fetch feed.2) as [entries|x]; [|reflexivity].
  injection Hall as ->. reflexivity.
Qed.

(** X12: a run ends in [KeyError] exactly when no item was collected - for
    instance when every feed failed or was empty - and otherwise yields the
    collected items without their duplicates, sorted for the ranking: no
    two items of the output share headline and link, every one of them was
    collected, and there are at most 300. *)
Theorem main_outcome chk clock fetch :
  (forall x, main chk clock fetch = Raise x <->
             (collect chk clock fetch).1 = [] /\ x = KeyError "date_utc") /\
  ((forall feed, feed ∈ FEEDS -> quiet fetch feed.2 = Ok []) ->
   main chk clock fetch = Raise (KeyError "date_utc")) /\
  ((collect chk clock fetch).1 <> [] ->
   exists out,
     main chk clock fetch = Ok out /\
     out ≡ₚ deduplicate (collect chk clock fetch).1 /\
     NoDup (dedup_key <$> out) /\
     StronglySorted rank_ge out /\
     (forall it, it ∈ out -> it ∈ (collect chk clock fetch).1) /\
     (length out <= 300)%nat).
Proof.
  unfold main, dedup_and_rank. split; [|split].
  - intros x. rewrite rank_raises_iff, deduplicate_nil_iff. reflexivity.
  - intros Hall. apply rank_raises_iff. split; [|reflexivity].
    apply deduplicate_nil_iff.
    apply collect_from_nothing, Hall.
  - intros Hne.
    assert (Hd : deduplicate (collect chk clock fetch).1 <> []).
    { intros E. apply Hne, deduplicate_nil_iff, E. }
    destruct (rank_nonempty _ Hd) as (out & Hr & Hp & Hs & _).
    exists out. split; [exact Hr|]. split; [exact Hp|].
    assert (Hsub : sublist (deduplicate (collect chk clock fetch).1)
                     (collect chk clock fetch).1).
    { rewrite deduplicate_dedup_from. apply dedup_from_sublist. }
    split; [|split; [exact Hs|split]].
    + rewrite Hp, deduplicate_dedup_from. apply dedup_from_NoDup.
    + intros it Hin. rewrite Hp in Hin.
      eapply elem_of_sublist; [exact Hin | exact Hsub].
    + apply Permutation_length in Hp. apply sublist_length in Hsub.
      pose proof (proj1 (collect_from_length chk clock fetch FEEDS 0)) as Hl.
      change (50 * length FEEDS)%nat with 300%nat in Hl.
      fold (collect chk clock fetch) in Hl. lia.
Qed.

Lemma main_outcome_witness :
  (forall feed, feed ∈ FEEDS -> quiet no_fetch feed.2 = Ok []) /\
  main accept_bracketed sample_clock no_fetch = Raise (KeyError "date_utc") /\
  (collect accept_bracketed sample_clock sample_fetch).1 <> [] /\
  exists out,
    main accept_bracketed sample_clock sample_fetch = Ok out /\
    NoDup (dedup_key <$> out).
Proof.
  assert (H1 : forall feed, feed ∈ FEEDS -> quiet no_fetch feed.2 = Ok [])
    by (intros feed _; reflexivity).
  assert (H2 : (collect accept_bracketed sample_clock sample_fetch).1 <> [])
    by (vm_compute; discriminate).
  split; [exact H1|]. split.
  - exact (proj1 (proj2 (main_outcome accept_bracketed sample_clock no_fetch)) H1).
  - split; [exact H2|].
    destruct (proj2 (proj2 (main_outcome accept_bracketed sample_clock
                              sample_fetch)) H2) as (out & Hm & _ & Hnd & _).
    exists out. split; [exact Hm | exact Hnd].
Defined.

(** ** Words inside words

    In a pattern such as [\bauction|tender|RfS|RFP|bid|awarded\b] the
    alternatives between the first and the last carry no [\b]: they are
    found anywhere, also inside a longer word. *)

Lemma matches_alts ic r r0 rs p s p' s' :
  r ∈ r0 :: rs -> matches ic r p s p' s' ->
  matches ic (Re.alts r0 rs) p s p' s'.
Proof.
  revert r0. induction rs as [|r1 rs IH]; intros r0 Hin Hm; simpl.
  - apply elem_of_cons in Hin as [-> | Hin]; [exact Hm | inversion Hin].
  - apply elem_of_cons in Hin as [-> | Hin].
    + apply m_alt_l, Hm.
    + apply m_alt_r, IH; assumption.
Qed.

Lemma inner_word_found r0 rs w text :
  word w ∈ r0 :: rs -> contains_fold w text ->
  Re.search true (Re.alts r0 rs) text = true.
Proof.
  intros Hin (pre & w' & post & -> & Hw).
  apply search_found. eexists pre, (w' +:+ post), _, post.
  split; [reflexivity|].
  eapply matches_alts; [exact Hin|]. apply matches_str, Hw.
Qed.

Lemma contains_fold_app_l w a b : contains_fold w a -> contains_fold w (a +:+ b).
Proof.
  intros (pre & w' & post & -> & Hw). exists pre, w', (post +:+ b).
  rewrite !string_app_assoc. auto.
Qed.

Lemma contains_fold_app_r w a b : contains_fold w b -> contains_fold w (a +:+ b).
Proof.
  intros (pre & w' & post & -> & Hw). exists (a +:+ pre), w', post.
  rewrite !string_app_assoc. auto.
Qed.

(** A text that contains tender, RfS, RFP or bid anywhere, in any case and
    also inside a longer word such as forbidden, is of category tender,
    whatever else it contains. *)
Theorem tender_words_anywhere w text :
  w ∈ ["tender"; "RfS"; "RFP"; "bid"] ->
  contains_fold w text ->
  guess_category text = "tender".
Proof.
  intros Hw Hc.
  assert (Hs : Re.search true RX_TENDER text = true).
  { unfold RX_TENDER. apply (inner_word_found _ _ w); [|exact Hc].
    repeat (apply elem_of_cons in Hw as [-> | Hw]);
      [| | | | inversion Hw];
      repeat first [apply list_elem_of_here | apply list_elem_of_further]. }
  unfold guess_category, CATEGORY_GUESS. simpl. rewrite Hs. reflexivity.
Qed.

Lemma tender_words_anywhere_witness :
  "bid" ∈ ["tender"; "RfS"; "RFP"; "bid"] /\
  contains_fold "bid" "Night flights forbidden over wind farm" /\
  guess_category "Night flights forbidden over wind farm" = "tender".
Proof.
  assert (H1 : "bid" ∈ ["tender"; "RfS"; "RFP"; "bid"]).
  { apply (bool_decide_unpack _). vm_compute. exact I. }
  assert (H2 : contains_fold "bid" "Night flights forbidden over wind farm").
  { exists "Night flights for", "bid", "den over wind farm".
    split; reflexivity. }
  split; [exact H1|]. split; [exact H2|].
  exact (tender_words_anywhere "bid" _ H1 H2).
Defined.

(** X13: when the title, the summary or the link of an entry contains
    German, Bundesnetzagentur, BNetzA, Fraunhofer, TenneT, 50Hertz or
    Amprion anywhere, in any case, the item is of region Germany and
    country DE, whatever else the entry says. *)
Theorem german_words_anywhere chk now src e it w :
  normalize chk now src e = Ok it ->
  w ∈ ["German"; "Bundesnetzagentur"; "BNetzA"; "Fraunhofer"; "TenneT";
       "50Hertz"; "Amprion"] ->
  contains_fold w (entry_title e) \/ contains_fold w (entry_summary e)
  \/ contains_fold w (entry_link e) ->
  region it = "Germany" /\ country it = "DE".
Proof.
  intros Hit Hw Hc.
  destruct (normalize_fields chk now src e it Hit) as (_ & Hr & Hco & _).
  assert (Htext : contains_fold w (entry_text e +:+ " " +:+ entry_link e)).
  { unfold entry_text. destruct Hc as [H | [H | H]].
    - apply contains_fold_app_l, contains_fold_app_l, H.
    - apply contains_fold_app_l, contains_fold_app_r, contains_fold_app_r, H.
    - apply contains_fold_app_r, contains_fold_app_r, H. }
  assert (Hs : Re.search true RX_GERMANY
                 (entry_text e +:+ " " +:+ entry_link e) = true).
  { unfold RX_GERMANY. apply (inner_word_found _ _ w); [|exact Htext].
    repeat (apply elem_of_cons in Hw as [-> | Hw]);
      [| | | | | | | inversion Hw];
      repeat first [apply list_elem_of_here | apply list_elem_of_further]. }
  assert (Hrc : infer_region_country chk
                  (entry_text e +:+ " " +:+ entry_link e) = ("Germany", "DE")).
  { apply infer_region_country_rule. unfold REGION_MAP. simpl.
    rewrite Hs. reflexivity. }
  rewrite Hr, Hco, Hrc. split; reflexivity.
Qed.

Lemma german_words_anywhere_witness :
  contains_fold "German" (entry_title germanium_entry) /\
  exists it,
    normalize accept_bracketed sample_now "PV-Tech" germanium_entry = Ok it /\
    region it = "Germany" /\ country it = "DE".
Proof.
  assert (Hc : contains_fold "German" (entry_title germanium_entry)).
  { exists "", "German", "ium prices rise". split; reflexivity. }
  split; [exact Hc|].
  destruct (normalize_returns accept_bracketed sample_now "PV-Tech"
              germanium_entry) as [it Hit]; [sample_wf|].
  exists it. split; [exact Hit|].
  apply (german_words_anywhere accept_bracketed sample_now "PV-Tech"
           germanium_entry it "German" Hit); [apply list_elem_of_here|].
  left. exact Hc.
Defined.

(** X14: for an entry whose headline begins with a plain word, the domain
    of the link plays no part: when no geography rule matches the title,
    the summary and the link, the item is of region Global with an empty
    country, also when the link is on a [.de] domain. *)
Theorem plain_headline_means_global chk now src e it :
  normalize chk now src e = Ok it ->
  starts_with_word (entry_title e) ->
  first_match REGION_MAP (entry_text e +:+ " " +:+ entry_link e) = None ->
  region it = "Global" /\ country it = "".
Proof.
  intros Hit Hw Hnone.
  destruct (normalize_fields chk now src e it Hit) as (_ & Hr & Hco & _).
  rewrite Hr, Hco, (headline_hides_link_domain chk e Hw Hnone).
  split; reflexivity.
Qed.

Lemma plain_headline_means_global_witness :
  starts_with_word (entry_title solar_news_entry) /\
  exists it,
    normalize accept_bracketed sample_now "PV-Tech" solar_news_entry = Ok it /\
    region it = "Global" /\ country it = "".
Proof.
  assert (Hw : starts_with_word (entry_title solar_news_entry)).
  { exists "S"%char, "olar", " news". split; [reflexivity|].
    split; [reflexivity|]. split; [reflexivity|]. right. eexists. reflexivity. }
  split; [exact Hw|].
  destruct (normalize_returns accept_bracketed sample_now "PV-Tech"
              solar_news_entry) as [it Hit]; [sample_wf|].
  exists it. split; [exact Hit|].
  apply (plain_headline_means_global accept_bracketed sample_now "PV-Tech"
           solar_news_entry it Hit Hw).
  vm_compute. reflexivity.
Defined.

(** ** The signals of the impact scorer *)

Ltac inv_matches :=
  repeat match goal with
         | H : matches _ Eps _ _ _ _ |- _ => inversion H; subst; clear H
         | H : matches _ (Lit _) _ _ _ _ |- _ => inversion H; subst; clear H
         | H : matches _ (In _) _ _ _ _ |- _ => inversion H; subst; clear H
         | H : matches _ WordB _ _ _ _ |- _ => inversion H; subst; clear H
         | H : matches _ (Cat _ _) _ _ _ _ |- _ => inversion H; subst; clear H
         end.

Lemma matches_str_inv w :
  forall p s p' s',
    matches true (Re.str w) p s p' s' ->
    exists w', s = w' +:+ s' /\ eq_fold w w' = true /\ p' = last_char p w'.
Proof.
  induction w as [|c w IH]; intros p s p' s' H.
  - simpl in H. inv_matches. exists "". auto.
  - destruct w as [|c1 w].
    + simpl in H. inv_matches. exists (String t ""). simpl.
      rewrite andb_true_r. auto.
    + change (Re.str (String c (String c1 w)))
        with (Cat (Lit c) (Re.str (String c1 w))) in H.
      inversion H as [| | | |? ? ? ? p1 s1 ? ? H1 H2| | | |]; subst.
      inversion H1; subst.
      apply IH in H2. destruct H2 as (w' & -> & Hw & ->).
      exists (String t w'). split; [reflexivity|]. split; [|reflexivity].
      change (eq_fold (String c (String c1 w)) (String t w'))
        with (Char.eqb_fold true c t && eq_fold (String c1 w) w').
      apply andb_true_iff. auto.
Qed.

Lemma matches_spaces_inv ic p s p' s' :
  matches ic (Star (In Space)) p s p' s' ->
  exists ws,
    s = ws +:+ s' /\ Str.forallb Char.is_space ws = true /\ p' = last_char p ws.
Proof.
  intros H. remember (Star (In Space)) as r eqn:Er.
  induction H as [| | | | | | |? ? ?|r0 p s p1 s1 p2 s2 Hb _ Hlt Hrest IH];
    try discriminate.
  - exists "". auto.
  - injection Er as ->. destruct (IH eq_refl) as (ws & -> & Hws & ->).
    inversion Hb as [| |? t ? ? Hin| | | | | |]; subst.
    exists (String t ws). split; [reflexivity|]. split; [|reflexivity].
    simpl in Hin |- *. rewrite Hin. exact Hws.
Qed.

Lemma matches_alts_inv ic r0 rs p s p' s' :
  matches ic (Re.alts r0 rs) p s p' s' ->
  exists r, r ∈ r0 :: rs /\ matches ic r p s p' s'.
Proof.
  revert r0. induction rs as [|r1 rs IH]; intros r0 H; simpl in H.
  - exists r0. split; [left | exact H].
  - inversion H; subst.
    + exists r0. split; [left | assumption].
    + match goal with Hm : matches _ (Re.alts _ _) _ _ _ _ |- _ =>
        destruct (IH r1 Hm) as (r & Hin & Hr) end.
      exists r. split; [right; exact Hin | exact Hr].
Qed.

Lemma boundary_word_after p s :
  Re.at_boundary p s = true -> Re.word_after s = true ->
  Re.word_before p = false.
Proof.
  unfold Re.at_boundary. intros H E. rewrite E in H.
  destruct (Re.word_before p); [discriminate | reflexivity].
Qed.

Lemma boundary_word_before p s :
  Re.at_boundary p s = true -> Re.word_before p = true ->
  Re.word_after s = false.
Proof.
  unfold Re.at_boundary. intros H E. rewrite E in H.
  destruct (Re.word_after s); [discriminate | reflexivity].
Qed.

Lemma lower_eq_nonletter t c :
  Char.lower t = c -> Char.is_ascii_lower c = false -> t = c.
Proof.
  intros <-. destruct t as [[] [] [] [] [] [] [] []]; intros H;
    try reflexivity; discriminate H.
Qed.

Lemma eqb_fold_nonletter c t :
  Char.eqb_fold true c t = true ->
  Char.is_ascii_lower c = false -> Char.is_ascii_upper c = false -> t = c.
Proof.
  unfold Char.eqb_fold. intros H Hl Hu. apply Ascii.eqb_eq in H.
  unfold Char.lower at 1 in H. rewrite Hu in H.
  apply lower_eq_nonletter; [symmetry; exact H | exact Hl].
Qed.

Lemma eq_fold_1000 w : eq_fold "1000" w = true -> w = "1000".
Proof.
  destruct w as [|a [|b [|c [|d [|x w]]]]]; cbn [eq_fold];
    rewrite ?andb_false_r; try discriminate.
  rewrite !andb_true_iff. intros (Ha & Hb & Hc & Hd & _).
  apply eqb_fold_nonletter in Ha, Hb, Hc, Hd; try reflexivity.
  subst. reflexivity.
Qed.

Lemma is_space_not_word c : Char.is_space c = true -> Char.is_word c = false.
Proof. destruct c as [[] [] [] [] [] [] [] []]; intros H; try reflexivity; discriminate H. Qed.

Lemma range_3_9_digit c :
  Re.in_cset true (Range "3" "9") c = true -> Char.between 51 57 c = true.
Proof. destruct c as [[] [] [] [] [] [] [] []]; intros H; try reflexivity; discriminate H. Qed.

Lemma last_char_spaces p ws :
  Str.forallb Char.is_space ws = true -> Re.word_before p = false ->
  Re.word_before (last_char p ws) = false.
Proof.
  revert p. induction ws as [|c ws IH]; intros p H Hp; simpl in *; [exact Hp|].
  destruct (Char.is_space c) eqn:E; [|discriminate].
  apply IH; [exact H|]. simpl. apply is_space_not_word, E.
Qed.

Ltac strip_suffix t post :=
  match t with
  | post => constr:(EmptyString)
  | String ?c ?r => let r' := strip_suffix r post in constr:(String c r')
  end.

Ltac inv_alt :=
  match goal with
  | H : matches _ (Alt _ _) _ _ _ _ |- _ => inversion H; subst; clear H
  end.

Ltac inv_spans :=
  repeat match goal with
         | H : matches _ (Star (In Space)) _ _ _ _ |- _ =>
             apply matches_spaces_inv in H; destruct H as (? & -> & ? & ->)
         end.

(** The characters that a pattern without letters fixes. *)
Ltac fix_chars :=
  repeat match goal with
         | H : Char.eqb_fold true ?c ?t = true |- _ =>
             apply eqb_fold_nonletter in H; [subst t | reflexivity | reflexivity]
         end.

Ltac word_char :=
  match goal with
  | H : Char.eqb_fold true ?c ?t = true |- Char.is_word ?t = true =>
      rewrite (eqb_fold_is_word c t H); reflexivity
  end.

Ltac fold_eq := cbn [eq_fold]; repeat (apply andb_true_iff; split); try assumption; reflexivity.

Lemma last_char_after_spaces p ws :
  Str.forallb Char.is_space ws = true -> ws <> "" ->
  Re.word_before (last_char p ws) = false.
Proof.
  destruct ws as [|c ws]; [contradiction|]. simpl. intros H _.
  destruct (Char.is_space c) eqn:E; [|discriminate].
  apply last_char_spaces; [exact H|]. simpl. apply is_space_not_word, E.
Qed.

Lemma gigawatt_found_inv text :
  Re.search true RX_GIGAWATT text = true -> gigawatt_signal text.
Proof.
  intros H. apply search_found in H.
  destruct H as (pre & rest & p' & s' & -> & Hm).
  rewrite RX_GIGAWATT_shape in Hm. inv_matches. inv_alt.
  - left. inv_matches. inv_alt; inv_matches; inv_spans; fix_chars.
    + match goal with
      | Hs1 : Str.forallb Char.is_space ?ws1 = true,
        Hs2 : Str.forallb Char.is_space ?ws2 = true,
        Hend : Re.at_boundary (Some ?w) ?post = true
        |- context [String ">" (?ws1 +:+ _)] =>
          exists (pre +:+ String ">" ws1), "1000", ws2;
          eexists (String _ (String w "")), post
      end.
      split; [rewrite !string_app_assoc; reflexivity|].
      split; [rewrite last_char_app; simpl; apply last_char_spaces;
              [assumption | reflexivity]|].
      split; [split; [reflexivity | discriminate]|].
      split; [reflexivity|]. split; [assumption|]. split; [fold_eq|].
      eapply boundary_word_before; [eassumption|]. simpl. word_char.
    + match goal with
      | Hs1 : Str.forallb Char.is_space ?ws1 = true,
        Hs2 : Str.forallb Char.is_space ?ws2 = true,
        Hend : Re.at_boundary (Some ?w) ?post = true,
        Hstart : Re.at_boundary _ (?ws1 +:+ _) = true
        |- _ =>
          exists (pre +:+ ws1), "1000", ws2;
          eexists (String _ (String w "")), post;
          (split; [rewrite !string_app_assoc; reflexivity|]);
          split;
          [ rewrite last_char_app; destruct ws1 as [|c ws1'];
            [ simpl; eapply boundary_word_after; [exact Hstart | reflexivity]
            | apply last_char_after_spaces; [assumption | discriminate] ] |]
      end.
      split; [split; [reflexivity | discriminate]|].
      split; [reflexivity|]. split; [assumption|]. split; [fold_eq|].
      eapply boundary_word_before; [eassumption|]. simpl. word_char.
  - right. inv_matches.
    match goal with
    | Hstart : Re.at_boundary _ _ = true,
      Hend : Re.at_boundary (Some ?t) ?post = true
      |- mentions_word _ (pre +:+ ?rest) =>
        let w' := strip_suffix rest post in
        exists pre, w', post;
        split; [reflexivity|];
        split; [eapply boundary_word_after; [exact Hstart | simpl; word_char]|]
    end.
    split; [fold_eq|].
    eapply boundary_word_before; [eassumption|]. simpl. word_char.
Qed.

Lemma capacity_found_inv text :
  Re.search true RX_CAPACITY text = true -> capacity_signal text.
Proof.
  intros H. apply search_found in H.
  destruct H as (pre & rest & p' & s' & -> & Hm).
  rewrite RX_CAPACITY_shape in Hm. unfold word in Hm. inv_matches. inv_alt.
  - right. inv_matches.
    match goal with
    | Hstart : Re.at_boundary _ _ = true,
      Hend : Re.at_boundary (Some ?t) ?post = true
      |- mentions_word _ (pre +:+ ?rest) =>
        let w' := strip_suffix rest post in
        exists pre, w', post;
        split; [reflexivity|];
        split; [eapply boundary_word_after; [exact Hstart | simpl; word_char]|]
    end.
    split; [fold_eq|].
    eapply boundary_word_before; [eassumption|]. simpl. word_char.
  - left. inv_matches. inv_spans.
    match goal with
    | H1 : Re.in_cset true (Range _ _) ?d1 = true,
      H2 : Re.in_cset true Digit ?d2 = true,
      H3 : Re.in_cset true Digit ?d3 = true,
      Hs : Str.forallb Char.is_space ?ws = true,
      Hstart : Re.at_boundary _ (String ?d1 (String ?d2 (String ?d3' _))) = true,
      Hend : Re.at_boundary (Some ?w) ?post = true |- _ =>
        apply range_3_9_digit in H1; simpl in H2, H3;
        assert (Hd1 : Char.is_digit d1 = true)
          by (apply between_spec; apply between_spec in H1; lia);
        exists pre, (String d1 (String d2 (String d3' ""))), ws;
        eexists (String _ (String w "")), post;
        (split; [reflexivity|]);
        (split; [eapply boundary_word_after;
                 [exact Hstart | simpl; apply is_digit_is_word, Hd1]|]);
        (split; [split; [simpl; rewrite Hd1, H2, H3; reflexivity
                        | intros ->; discriminate H1]|]);
        (split; [simpl; apply between_spec in H1;
                 destruct (digit_value_bound d1 Hd1),
                   (digit_value_bound d2 H2), (digit_value_bound d3' H3); lia|]);
        (split; [exact Hs|])
    end.
    split; [fold_eq|].
    eapply boundary_word_before; [eassumption|]. simpl. word_char.
Qed.

Lemma policy_found_inv text :
  Re.search true RX_POLICY text = true -> policy_signal text.
Proof.
  intros H. apply search_found in H.
  destruct H as (pre & rest & p' & s' & -> & Hm).
  unfold RX_POLICY in Hm. apply matches_alts_inv in Hm.
  destruct Hm as (r & Hin & Hm). unfold policy_signal.
  repeat (apply elem_of_cons in Hin as [-> | Hin]); [| | | | inversion Hin].
  - left. unfold bword in Hm. inv_matches.
    match goal with
    | |- begins_word _ (pre +:+ ?rest) =>
        let w' := strip_suffix rest s' in exists pre, w', s'
    end.
    split; [reflexivity|].
    split; [eapply boundary_word_after; [eassumption | simpl; word_char]
           | fold_eq].
  - right. left. apply matches_str_inv in Hm.
    destruct Hm as (w' & -> & Hw & _). exists pre, w', s'. auto.
  - right. right. left. apply matches_str_inv in Hm.
    destruct Hm as (w' & -> & Hw & _). exists pre, w', s'. auto.
  - right. right. right. unfold wordb in Hm. inv_matches.
    match goal with
    | |- ends_word _ (pre +:+ ?rest) =>
        let w' := strip_suffix rest s' in exists pre, w', s'
    end.
    split; [reflexivity|]. split; [fold_eq|].
    eapply boundary_word_before; [eassumption | simpl; word_char].
Qed.

Lemma eq_fold_last_word w c :
  forall w' p,
    eq_fold (w +:+ String c "") w' = true -> Char.is_word c = true ->
    Re.word_before (last_char p w') = true.
Proof.
  induction w as [|x w IH]; intros w' p H Hc.
  - rewrite string_app_nil_l in H. destruct w' as [|t [|? ?]]; try discriminate.
    + simpl in H. rewrite andb_true_r in H. simpl.
      rewrite (eqb_fold_is_word c t H). exact Hc.
    + simpl in H. rewrite andb_false_r in H. discriminate.
  - rewrite string_app_cons in H. destruct w' as [|t w']; [discriminate|].
    cbn [eq_fold] in H. apply andb_true_iff in H. destruct H as [_ H].
    simpl. apply (IH w' (Some t) H Hc).
Qed.

Lemma capacity_pattern_finds_GW text :
  mentions_word "GW" text -> Re.search true RX_CAPACITY text = true.
Proof.
  intros (pre & w' & post & Heq & Hb & Hw & Ha).
  apply search_found. eexists pre, _, _, post. split; [exact Heq|].
  rewrite RX_CAPACITY_shape.
  eapply m_cat.
  { apply m_wordb. apply boundary_before_word; [exact Hb|].
    apply (eq_fold_word_after "G" "W"); [exact Hw | reflexivity]. }
  eapply m_cat.
  { apply m_alt_l. apply matches_str. exact Hw. }
  apply m_wordb. apply boundary_after_word; [|exact Ha].
  apply (eq_fold_word_before "GW"); [exact Hw | discriminate | reflexivity].
Qed.

Lemma policy_pattern_finds text :
  policy_signal text -> Re.search true RX_POLICY text = true.
Proof.
  unfold RX_POLICY.
  intros [(pre & w' & post & -> & Hb & Hw)
         | [H | [H | (pre & w' & post & -> & Hw & Ha)]]].
  - apply search_found. eexists pre, _, _, post. split; [reflexivity|].
    eapply matches_alts; [apply list_elem_of_here|].
    eapply m_cat; [|apply matches_str, Hw].
    apply m_wordb, boundary_before_word; [exact Hb|].
    apply (eq_fold_word_after "p" "olicy"); [exact Hw | reflexivity].
  - apply (inner_word_found _ _ "auction result"); [|exact H].
    apply list_elem_of_further, list_elem_of_here.
  - apply (inner_word_found _ _ "capacity market"); [|exact H].
    do 2 apply list_elem_of_further. apply list_elem_of_here.
  - apply search_found. eexists pre, _, _, post. split; [reflexivity|].
    eapply matches_alts; [do 3 apply list_elem_of_further; apply list_elem_of_here|].
    eapply m_cat; [apply matches_str, Hw|].
    apply m_wordb, boundary_after_word; [|exact Ha].
    apply (eq_fold_last_word "state-ai" "d"); [exact Hw | reflexivity].
Qed.

(** Each of the three searches of [score_impact] succeeds exactly on the
    texts that carry its signal. *)
Lemma signals_decide_the_searches text :
  (Re.search true RX_GIGAWATT text = true <-> gigawatt_signal text) /\
  (Re.search true RX_CAPACITY text = true <-> capacity_signal text) /\
  (Re.search true RX_POLICY text = true <-> policy_signal text).
Proof.
  split; [|split]; split.
  - apply gigawatt_found_inv.
  - intros [H | H];
      [apply gigawatt_pattern_finds_1000 | apply gigawatt_pattern_finds_word];
      exact H.
  - apply capacity_found_inv.
  - intros [H | H];
      [apply capacity_pattern_finds_300_999 | apply capacity_pattern_finds_GW];
      exact H.
  - apply policy_found_inv.
  - apply policy_pattern_finds.
Qed.

(** X15: the score is 5 exactly when the text mentions the quantity
    1000 MW - the numeral 1000, optional whitespace and MW in any case,
    free of word characters on both sides - or the word gigawatt; no other
    quantity, however large, gives the top score. *)
Theorem top_score_iff_gigawatt text :
  score_impact text = 5 <-> gigawatt_signal text.
Proof.
  destruct (signals_decide_the_searches text) as (Hg & _ & _).
  rewrite <- Hg. unfold score_impact.
  destruct (Re.search true RX_CAPACITY text), (Re.search true RX_GIGAWATT text),
    (Re.search true RX_POLICY text); vm_compute;
    split; intros H; solve [reflexivity | discriminate H].
Qed.

(** X16: without such a mention the score is 4 when the text mentions a
    quantity from 300 to 999 MW or the word GW, or has policy language -
    policy at the beginning of a word, auction result or capacity market
    anywhere, state-aid at the end of a word - and 3 otherwise; so a
    quantity such as 250 MW or 1500 MW alone leaves the score at 3. *)
Theorem score_tiers_by_signals text :
  (score_impact text = 4 <->
   ~ gigawatt_signal text /\ (capacity_signal text \/ policy_signal text)) /\
  (score_impact text = 3 <->
   ~ gigawatt_signal text /\ ~ capacity_signal text /\ ~ policy_signal text).
Proof.
  destruct (signals_decide_the_searches text) as (Hg & Hc & Hp).
  rewrite <- Hg, <- Hc, <- Hp. unfold score_impact.
  destruct (Re.search true RX_CAPACITY text), (Re.search true RX_GIGAWATT text),
    (Re.search true RX_POLICY text);
    change (Z.max 3 4) with 4; change (Z.max 4 4) with 4;
    change (Z.max 5 4) with 5; cbv beta zeta;
    intuition (try discriminate; try congruence).
Qed.

(** ** The rule tables as tables of words *)

(** The tables of the source are the tables of words, pattern by
    pattern. *)
Lemma tables_are_compiled :
  REGION_MAP = compile_rows REGION_WORDS /\
  CATEGORY_GUESS = compile_rows CATEGORY_WORDS.
Proof. split; reflexivity. Qed.

Lemma eq_fold_first a w' s :
  eq_fold a w' = true -> Re.word_after a = true ->
  Re.word_after (w' +:+ s) = true.
Proof.
  destruct a as [|c a]; [discriminate|].
  destruct w' as [|t w']; [discriminate|]. cbn [eq_fold]. simpl. intros H Hc.
  apply andb_true_iff in H. destruct H as [H _].
  rewrite (eqb_fold_is_word c t H). exact Hc.
Qed.

Lemma eq_fold_last z :
  forall w' p q,
    eq_fold z w' = true ->
    (Re.word_before q = true -> Re.word_before p = true) ->
    Re.word_before (last_char q z) = true ->
    Re.word_before (last_char p w') = true.
Proof.
  induction z as [|c z IH]; intros w' p q H Hpq Hz.
  - destruct w'; [|discriminate]. simpl in *. auto.
  - destruct w' as [|t w']; [discriminate|]. cbn [eq_fold] in H.
    apply andb_true_iff in H. destruct H as [Hc H]. simpl in *.
    apply (IH w' (Some t) (Some c) H); [|exact Hz].
    simpl. rewrite (eqb_fold_is_word c t Hc). auto.
Qed.

(** A pattern of the tables is found exactly in the texts that have its
    first word at the beginning of a word, one of its inner words anywhere,
    or its last word at the end of a word. *)
Lemma edge_pattern_found a inner z text :
  wf_row (a, inner, z) ->
  Re.search true (edge_pattern a inner z) text = true <->
  edge_signal a inner z text.
Proof.
  intros [Ha Hz]. simpl in Ha, Hz. unfold edge_pattern, edge_signal. split.
  - intros H. apply search_found in H.
    destruct H as (pre & rest & p' & s' & -> & Hm).
    apply matches_alts_inv in Hm. destruct Hm as (r & Hin & Hm).
    apply elem_of_cons in Hin as [-> | Hin].
    + left. unfold bword in Hm.
      inversion Hm as [| | | |? ? ? ? p1 s1 ? ? H1 H2| | | |]; subst.
      inversion H1; subst.
      apply matches_str_inv in H2. destruct H2 as (w' & -> & Hw & _).
      exists pre, w', s'. split; [reflexivity|]. split; [|exact Hw].
      eapply boundary_word_after; [eassumption|].
      apply (eq_fold_first a); assumption.
    + apply elem_of_app in Hin as [Hin | Hin].
      * right. left. apply list_elem_of_fmap in Hin.
        destruct Hin as (w & -> & Hw). unfold word in Hm.
        apply matches_str_inv in Hm. destruct Hm as (w' & -> & Hf & _).
        exists w. split; [exact Hw|]. exists pre, w', s'. auto.
      * right. right. apply list_elem_of_singleton in Hin. subst r.
        unfold wordb in Hm.
        inversion Hm as [| | | |? ? ? ? p1 s1 ? ? H1 H2| | | |]; subst.
        inversion H2; subst.
        apply matches_str_inv in H1. destruct H1 as (w' & -> & Hw & ->).
        exists pre, w', s'. split; [reflexivity|]. split; [exact Hw|].
        eapply boundary_word_before; [eassumption|].
        apply (eq_fold_last z w' _ None Hw); [discriminate | exact Hz].
  - intros [(pre & w' & post & -> & Hb & Hw)
           | [(w & Hin & Hc) | (pre & w' & post & -> & Hw & Hp)]].
    + apply search_found. eexists pre, _, _, post. split; [reflexivity|].
      eapply matches_alts; [apply list_elem_of_here|].
      eapply m_cat; [|apply matches_str, Hw].
      apply m_wordb, boundary_before_word; [exact Hb|].
      apply (eq_fold_first a); assumption.
    + apply (inner_word_found _ _ w); [|exact Hc].
      apply list_elem_of_further, elem_of_app. left.
      apply list_elem_of_fmap_2, Hin.
    + apply search_found. eexists pre, _, _, post. split; [reflexivity|].
      eapply matches_alts.
      { apply list_elem_of_further, elem_of_app. right. apply list_elem_of_here. }
      eapply m_cat; [apply matches_str, Hw|].
      apply m_wordb, boundary_after_word; [|exact Hp].
      apply (eq_fold_last z w' _ None Hw); [discriminate | exact Hz].
Qed.

Lemma first_match_by_signals {A : Type} (table : list (word_row * A)) text :
  Forall (fun rv => wf_row rv.1) table ->
  (first_match (compile_rows table) text = None /\
   forall k rv, table !! k = Some rv -> ~ row_signal rv.1 text)
  \/
  (exists k rv,
     table !! k = Some rv /\ row_signal rv.1 text /\
     (forall k' rv', (k' < k)%nat -> table !! k' = Some rv' ->
                     ~ row_signal rv'.1 text) /\
     first_match (compile_rows table) text = Some rv.2).
Proof.
  induction 1 as [|[row v] table Hwf _ IH]; simpl.
  - left. split; [reflexivity|]. intros k rv H. discriminate.
  - pose proof (edge_pattern_found row.1.1 row.1.2 row.2 text) as Hiff.
    destruct row as [[a inner] z]. specialize (Hiff Hwf).
    change (row_pattern (a, inner, z)) with (edge_pattern a inner z).
    simpl in Hiff.
    destruct (Re.search true (edge_pattern a inner z) text) eqn:E.
    + right. exists 0%nat, ((a, inner, z), v). simpl.
      split; [reflexivity|]. split; [apply Hiff; reflexivity|].
      split; [intros; lia | reflexivity].
    + assert (Hno : ~ row_signal (a, inner, z) text).
      { intros Hs. apply Hiff in Hs. discriminate. }
      destruct IH as [[Hnone Hall] | (k & rv & Hk & Hs & Hbefore & Hres)].
      * left. split; [exact Hnone|]. intros [|k] rv Hk; simpl in Hk.
        -- injection Hk as <-. exact Hno.
        -- eauto.
      * right. exists (S k), rv. split; [exact Hk|]. split; [exact Hs|].
        split; [|exact Hres].
        intros [|k'] rv' Hlt Hk'; simpl in Hk'.
        -- injection Hk' as <-. exact Hno.
        -- apply (Hbefore k'); [lia | exact Hk'].
Qed.

Lemma REGION_WORDS_wf : Forall (fun rv => wf_row rv.1) REGION_WORDS.
Proof. repeat constructor. Qed.

Lemma CATEGORY_WORDS_wf : Forall (fun rv => wf_row rv.1) CATEGORY_WORDS.
Proof. repeat constructor. Qed.

Lemma first_signal_unique {A : Type} (table : list (word_row * A)) text k rv :
  Forall (fun rv => wf_row rv.1) table ->
  table !! k = Some rv -> row_signal rv.1 text ->
  (forall k' rv', (k' < k)%nat -> table !! k' = Some rv' ->
                  ~ row_signal rv'.1 text) ->
  first_match (compile_rows table) text = Some rv.2.
Proof.
  intros Hwf Hk Hs Hbefore.
  destruct (first_match_by_signals table text Hwf)
    as [[_ Hall] | (k0 & rv0 & Hk0 & Hs0 & Hbefore0 & Hres)].
  - exfalso. exact (Hall k rv Hk Hs).
  - destruct (lt_eq_lt_dec k0 k) as [[Hlt | ->] | Hgt].
    + exfalso. exact (Hbefore k0 rv0 Hlt Hk0 Hs0).
    + congruence.
    + exfalso. exact (Hbefore0 k rv Hgt Hk Hs).
Qed.

Lemma no_signal_no_match {A : Type} (table : list (word_row * A)) text :
  Forall (fun rv => wf_row rv.1) table ->
  (forall k rv, table !! k = Some rv -> ~ row_signal rv.1 text) ->
  first_match (compile_rows table) text = None.
Proof.
  intros Hwf Hall.
  destruct (first_match_by_signals table text Hwf)
    as [[Hnone _] | (k0 & rv0 & Hk0 & Hs0 & _)]; [exact Hnone|].
  exfalso. exact (Hall k0 rv0 Hk0 Hs0).
Qed.

(** X17: the category of a text is decided by the table of words of
    [CATEGORY_GUESS]: it is the label of the first row of which the text
    has the first word at the beginning of a word, an inner word anywhere
    - also inside a longer word - or the last word at the end of a word,
    and market when no row applies. *)
Theorem category_by_words text :
  (forall k rv,
     CATEGORY_WORDS !! k = Some rv -> row_signal rv.1 text ->
     (forall k' rv', (k' < k)%nat -> CATEGORY_WORDS !! k' = Some rv' ->
                     ~ row_signal rv'.1 text) ->
     guess_category text = rv.2) /\
  ((forall k rv, CATEGORY_WORDS !! k = Some rv -> ~ row_signal rv.1 text) ->
   guess_category text = "market").
Proof.
  unfold guess_category.
  change CATEGORY_GUESS with (compile_rows CATEGORY_WORDS). split.
  - intros k rv Hk Hs Hbefore.
    rewrite (first_signal_unique _ text k rv CATEGORY_WORDS_wf Hk Hs Hbefore).
    reflexivity.
  - intros Hall.
    rewrite (no_signal_no_match _ text CATEGORY_WORDS_wf Hall). reflexivity.
Qed.

(** X18: the geography classifier is decided in the same way by the
    table of words of [REGION_MAP], in the order Germany, India, Europe;
    when no row applies the answer is that of the test of the network
    location, Germany for [.de] and Global otherwise. *)
Theorem region_by_words chk text :
  (forall k rv,
     REGION_WORDS !! k = Some rv -> row_signal rv.1 text ->
     (forall k' rv', (k' < k)%nat -> REGION_WORDS !! k' = Some rv' ->
                     ~ row_signal rv'.1 text) ->
     infer_region_country chk text = rv.2) /\
  ((forall k rv, REGION_WORDS !! k = Some rv -> ~ row_signal rv.1 text) ->
   infer_region_country chk text
   = if Str.endswith ".de"
          (match Url.netloc chk text with Ok h => h | Raise _ => "" end)
     then ("Germany", "DE") else ("Global", "")).
Proof.
  split.
  - intros k rv Hk Hs Hbefore. apply infer_region_country_rule.
    change REGION_MAP with (compile_rows REGION_WORDS).
    apply (first_signal_unique _ text k rv REGION_WORDS_wf Hk Hs Hbefore).
  - intros Hall. apply infer_region_country_fallback.
    change REGION_MAP with (compile_rows REGION_WORDS).
    apply (no_signal_no_match _ text REGION_WORDS_wf Hall).
Qed.

Lemma whole_word_found w text :
  Re.word_after w = true -> Re.word_before (last_char None w) = true ->
  Re.search true (Re.seq [WordB; word w; WordB]) text = true <->
  mentions_word w text.
Proof.
  intros Ha Hz.
  change (Re.seq [WordB; word w; WordB])
    with (Cat WordB (Cat (Re.str w) WordB)).
  split.
  - intros H. apply search_found in H.
    destruct H as (pre & rest & p' & s' & -> & Hm).
    inversion Hm as [| | | |? ? ? ? p1 s1 ? ? H1 H2| | | |]; subst.
    inversion H1; subst.
    inversion H2 as [| | | |? ? ? ? p2 s2 ? ? H3 H4| | | |]; subst.
    inversion H4; subst.
    apply matches_str_inv in H3. destruct H3 as (w' & -> & Hw & ->).
    exists pre, w', s'. split; [reflexivity|]. split; [|split; [exact Hw|]].
    + eapply boundary_word_after; [eassumption|]. apply (eq_fold_first w); assumption.
    + eapply boundary_word_before; [eassumption|].
      apply (eq_fold_last w w' _ None Hw); [discriminate | exact Hz].
  - intros (pre & w' & post & -> & Hb & Hw & Hp).
    apply search_found. eexists pre, _, _, post. split; [reflexivity|].
    eapply m_cat.
    { apply m_wordb, boundary_before_word; [exact Hb|].
      apply (eq_fold_first w); assumption. }
    eapply m_cat; [apply matches_str, Hw|].
    apply m_wordb, boundary_after_word; [|exact Hp].
    apply (eq_fold_last w w' _ None Hw); [discriminate | exact Hz].
Qed.

Lemma tag_searches text :
  ("PV+BESS" ∈ derive_tags text <-> Re.search true RX_TAG_HYBRID text = true) /\
  ("wind" ∈ derive_tags text <-> Re.search true RX_TAG_WIND text = true) /\
  ("PV" ∈ derive_tags text <-> Re.search true RX_TAG_PV text = true) /\
  ("storage" ∈ derive_tags text <-> Re.search true RX_TAG_STORAGE text = true).
Proof.
  unfold derive_tags.
  destruct (Re.search true RX_TAG_HYBRID text),
    (Re.search true RX_TAG_WIND text), (Re.search true RX_TAG_PV text),
    (Re.search true RX_TAG_STORAGE text); simpl;
    repeat split; intros H; try reflexivity; try discriminate H;
    first [ apply (bool_decide_unpack _); vm_compute; exact I
          | exfalso; revert H; apply (bool_decide_unpack _); vm_compute; exact I ].
Qed.

(** X19: the tags beside the baseline tag, in words: PV+BESS for hybrid at
    the beginning of a word, PV+BESS anywhere or RTC at the end of a word;
    wind for the word wind; PV for PV at the beginning of a word or solar
    at the end of one; storage for battery at the beginning of a word,
    BESS anywhere or storage at the end of a word. *)
Theorem tags_by_words text :
  ("PV+BESS" ∈ derive_tags text <-> edge_signal "hybrid" ["PV+BESS"] "RTC" text) /\
  ("wind" ∈ derive_tags text <-> mentions_word "wind" text) /\
  ("PV" ∈ derive_tags text <-> begins_word "PV" text \/ ends_word "solar" text) /\
  ("storage" ∈ derive_tags text <-> edge_signal "battery" ["BESS"] "storage" text).
Proof.
  destruct (tag_searches text) as (H1 & H2 & H3 & H4).
  rewrite H1, H2, H3, H4. split; [|split; [|split]].
  - apply (edge_pattern_found "hybrid" ["PV+BESS"] "RTC"). split; reflexivity.
  - apply (whole_word_found "wind"); reflexivity.
  - change RX_TAG_PV with (edge_pattern "PV" [] "solar").
    rewrite (edge_pattern_found "PV" [] "solar") by (split; reflexivity).
    unfold edge_signal. split; [|tauto].
    intros [H | [(w & Hin & _) | H]]; [tauto | inversion Hin | tauto].
  - apply (edge_pattern_found "battery" ["BESS"] "storage"). split; reflexivity.
Qed.

Lemma category_by_words_witness :
  row_signal ("policy", ["regulation"; "consultation"; "state-aid"; "EEG"],
              "grid code") "New regulation for storage" /\
  guess_category "New regulation for storage" = "policy" /\
  guess_category "Solar news" = "market".
Proof.
  assert (Hs : row_signal ("policy", ["regulation"; "consultation"; "state-aid";
                                      "EEG"], "grid code")
                 "New regulation for storage").
  { right. left. exists "regulation". split; [apply list_elem_of_here|].
    exists "New ", "regulation", " for storage". split; reflexivity. }
  split; [exact Hs|]. split.
  - apply (proj1 (category_by_words "New regulation for storage") 1%nat
             (("policy", ["regulation"; "consultation"; "state-aid"; "EEG"],
               "grid code"), "policy") eq_refl Hs).
    intros [|k'] rv' Hlt Hk H; [|lia]. injection Hk as <-.
    apply (edge_pattern_found "auction" ["tender"; "RfS"; "RFP"; "bid"] "awarded")
      in H; [|split; reflexivity].
    vm_compute in H. discriminate H.
  - apply (proj2 (category_by_words "Solar news")).
    intros k rv Hk H.
    destruct rv as [[[a inner] z] label].
    apply (edge_pattern_found a inner z) in H.
    + destruct k as [|[|[|[|[|[|k]]]]]]; simpl in Hk; try discriminate Hk;
        injection Hk as <- <- <- <-; vm_compute in H; discriminate H.
    + destruct k as [|[|[|[|[|[|k]]]]]]; simpl in Hk; try discriminate Hk;
        injection Hk as <- <- <- <-; split; reflexivity.
Defined.

Lemma region_by_words_witness :
  row_signal ("India",
              ["MNRE"; "SECI"; "CEA"; "CERC"; "Gujarat"; "Maharashtra";
               "Rajasthan"; "Grid-India"], "POSOCO") "Ocean energy" /\
  infer_region_country accept_bracketed "Ocean energy" = ("India", "IN").
Proof.
  assert (Hs : row_signal ("India",
                 ["MNRE"; "SECI"; "CEA"; "CERC"; "Gujarat"; "Maharashtra";
                  "Rajasthan"; "Grid-India"], "POSOCO") "Ocean energy").
  { right. left. exists "CEA".
    split; [do 2 apply list_elem_of_further; apply list_elem_of_here|].
    exists "O", "cea", "n energy". split; reflexivity. }
  split; [exact Hs|].
  apply (proj1 (region_by_words accept_bracketed "Ocean energy") 1%nat
           (("India",
             ["MNRE"; "SECI"; "CEA"; "CERC"; "Gujarat"; "Maharashtra";
              "Rajasthan"; "Grid-India"], "POSOCO"), ("India", "IN"))
           eq_refl Hs).
  intros [|k'] rv' Hlt Hk H; [|lia]. injection Hk as <-.
  apply (edge_pattern_found "Germany"
           ["German"; "Bundesnetzagentur"; "BNetzA"; "Fraunhofer"; "TenneT";
            "50Hertz"; "Amprion"] "TransnetBW") in H; [|split; reflexivity].
  vm_compute in H. discriminate H.
Defined.
